(** * Address validator: result classification and address comparison

    Shallow embedding of [src/services/googleGeocodingService.ts]:
    [compareAddresses], [isCountryOnlyResult], [extractAddressComponents]
    and [classifyGeocodeResults].

    Strings.  A JavaScript string is the sequence of its UTF-16 code
    units.  The embedding takes the code units below 256 (ISO 8859-1), one
    [ascii] each; on these [toLowerCase] acts character by character and
    [\s], [\w] and [trim] have the finite character classes written below.
    Every statement about [jsstring] is a statement about these strings
    only.  The module [Utf16] has the normalization on strings of any
    code units; it shows where the 8-bit strings sit among them and what
    changes outside (a surrogate pair is lowered as one character).

    Numbers.  [common / total > 0.6] is computed by the source on doubles.
    Both operands are set sizes, [total >= 1], and the division and the
    literal are correctly rounded, so for sizes below 2^50 the test
    holds exactly when the rational [common / total] exceeds [6/10]; the
    embedding computes it in [Q].

    Exceptions.  A function of the source that can throw returns a
    [Result]; the only throw in reach of the classifier is the
    [TypeError] of [components.find] on [undefined]. *)

From Stdlib Require Import Ascii String QArith Bool Arith Lia ListSet NArith.
From Stdlib Require Import Permutation List.
Import ListNotations.
Close Scope Q_scope.
Open Scope bool_scope.

(** ** JavaScript strings *)

Definition jsstring := list ascii.

(** String literals of the source. *)
Definition js (s : string) : jsstring := list_ascii_of_string s.

Definition jsstring_dec : forall a b : jsstring, {a = b} + {a <> b} :=
  list_eq_dec ascii_dec.

(** [a === b] on strings. *)
Definition strictEq (a b : jsstring) : bool :=
  if jsstring_dec a b then true else false.

(** [xs.includes(x)] on an array of strings. *)
Definition includes (xs : list jsstring) (x : jsstring) : bool :=
  existsb (strictEq x) xs.

Definition inRange (lo hi : N) (c : ascii) : bool :=
  (lo <=? N_of_ascii c)%N && (N_of_ascii c <=? hi)%N.

(** [\w]: [A-Za-z0-9_]. *)
Definition isWordChar (c : ascii) : bool :=
  inRange 48 57 c || inRange 65 90 c || inRange 95 95 c || inRange 97 122 c.

(** [\s], which is also the class removed by [trim]: TAB, LF, VT, FF, CR,
    SPACE and NO-BREAK SPACE. *)
Definition isSpace (c : ascii) : bool :=
  inRange 9 13 c || inRange 32 32 c || inRange 160 160 c.

(** [[\.,]] *)
Definition isPunct (c : ascii) : bool :=
  Ascii.eqb c "."%char || Ascii.eqb c ","%char.

(** Lower-case mapping of one code unit: A-Z, and the Latin-1 capitals
    U+00C0-U+00D6 and U+00D8-U+00DE, move up by 32. *)
Definition toLower1 (c : ascii) : ascii :=
  if inRange 65 90 c || inRange 192 214 c || inRange 216 222 c
  then ascii_of_N (N_of_ascii c + 32)
  else c.

(** [s.toLowerCase()] *)
Definition toLowerCase (s : jsstring) : jsstring := map toLower1 s.

(** *** [String.prototype.replace] with a global regular expression

    A pattern is given by its matcher: [re prev s] is the length of the
    match that starts at the current position, where [s] is the rest of the
    subject and [prev] the character before it ([None] at the start of
    the subject).  No pattern of this file matches the empty string. *)

Definition regex := option ascii -> jsstring -> option nat.

(** The scan of [replace]: at each position, either the pattern matches
    (the replacement is emitted and the scan resumes after the match;
    [skip] counts the characters of the match still to be passed over) or
    the character is copied. *)
Fixpoint replaceFrom (re : regex) (r : jsstring) (prev : option ascii)
    (skip : nat) (s : jsstring) : jsstring :=
  match s with
  | [] => []
  | c :: t =>
      match skip with
      | S k => replaceFrom re r (Some c) k t
      | O =>
          match re prev s with
          | Some (S n) => r ++ replaceFrom re r (Some c) n t
          | _ => c :: replaceFrom re r (Some c) 0 t
          end
      end
  end.

(** [s.replace(re, r)] for [re] with the [g] flag. *)
Definition replace (re : regex) (r : jsstring) (s : jsstring) : jsstring :=
  replaceFrom re r None 0 s.

(** [/[\.,]/g] *)
Definition re_punct : regex := fun _ s =>
  match s with
  | c :: _ => if isPunct c then Some 1 else None
  | [] => None
  end.

Definition isWord (o : option ascii) : bool :=
  match o with Some c => isWordChar c | None => false end.

(** [\b] holds between two positions when exactly one side is a word
    character; the two ends of the subject count as non-word. *)
Definition wordBoundary (before after : option ascii) : bool :=
  xorb (isWord before) (isWord after).

Fixpoint startsWith (w s : jsstring) : bool :=
  match w, s with
  | [], _ => true
  | a :: w', b :: s' => Ascii.eqb a b && startsWith w' s'
  | _ :: _, [] => false
  end.

(** Last character of [prev] followed by [w]. *)
Definition lastOr (prev : option ascii) (w : jsstring) : option ascii :=
  fold_left (fun _ c => Some c) w prev.

(** [/\b(w)\b/g] for a literal [w]. *)
Definition re_word (w : jsstring) : regex := fun prev s =>
  if wordBoundary prev (hd_error s)
     && startsWith w s
     && wordBoundary (lastOr prev w) (hd_error (skipn (length w) s))
  then Some (length w)
  else None.

(** Length of the leading run of whitespace. *)
Fixpoint wsRun (s : jsstring) : nat :=
  match s with
  | c :: t => if isSpace c then S (wsRun t) else 0
  | [] => 0
  end.

(** [/\s+/g] (greedy). *)
Definition re_ws : regex := fun _ s =>
  match wsRun s with
  | 0 => None
  | n => Some n
  end.

Fixpoint trimStart (s : jsstring) : jsstring :=
  match s with
  | c :: t => if isSpace c then trimStart t else s
  | [] => []
  end.

Fixpoint trimEnd (s : jsstring) : jsstring :=
  match s with
  | [] => []
  | c :: t =>
      match trimEnd t with
      | [] => if isSpace c then [] else [c]
      | t' => c :: t'
      end
  end.

(** [s.trim()] *)
Definition trim (s : jsstring) : jsstring := trimEnd (trimStart s).

(** [s.split(sep)] for a one-character separator; the empty string splits
    into one empty piece. *)
Fixpoint split (sep : ascii) (s : jsstring) : list jsstring :=
  match s with
  | [] => [[]]
  | c :: t =>
      if Ascii.eqb c sep then [] :: split sep t
      else match split sep t with
           | w :: ws => (c :: w) :: ws
           | [] => [[c]]
           end
  end.

(** ** JavaScript [Set] of strings

    Elements in insertion order, each once. *)

Definition JsSet := set jsstring.

(** [new Set(xs)] *)
Definition newSet (xs : list jsstring) : JsSet :=
  fold_left (fun s x => set_add jsstring_dec x s) xs (empty_set jsstring).

(** [s.has(x)] *)
Definition has (s : JsSet) (x : jsstring) : bool := set_mem jsstring_dec x s.

(** [s.size] *)
Definition size (s : JsSet) : nat := length s.

(** ** Address comparator *)

Inductive MatchStatus : Set := validated | corrected.

(** The local [normalize] of [compareAddresses]. *)
Definition normalize (s : jsstring) : jsstring :=
  trim
    (replace re_ws (js " ")
      (replace (re_word (js "mountain")) (js "mtn")
        (replace (re_word (js "avenue")) (js "ave")
          (replace (re_word (js "street")) (js "st")
            (replace (re_word (js "road")) (js "rd")
              (replace re_punct (js "")
                (toLowerCase s))))))).

(** [new Set(norm.split(" "))] *)
Definition wordSetOf (norm : jsstring) : JsSet :=
  newSet (split " "%char norm).

(** [common]: [[...inputWords].filter((w) => resultWords.has(w)).length] *)
Definition common (inputWords resultWords : JsSet) : nat :=
  length (filter (fun w => has resultWords w) inputWords).

(** [total]: [Math.max(inputWords.size, resultWords.size)] *)
Definition total (inputWords resultWords : JsSet) : nat :=
  Nat.max (size inputWords) (size resultWords).

(** [similarity]: [common / total], on the two normalized strings. *)
Definition similarity (normInput normResult : jsstring) : Q :=
  let inputWords := wordSetOf normInput in
  let resultWords := wordSetOf normResult in
  (inject_Z (Z.of_nat (common inputWords resultWords))
   / inject_Z (Z.of_nat (total inputWords resultWords)))%Q.

(** [a > b] on numbers. *)
Definition gt (a b : Q) : bool := negb (Qle_bool a b).

Definition compareAddresses (input result : jsstring) : MatchStatus :=
  let normInput := normalize input in
  let normResult := normalize result in
  if strictEq normInput normResult then validated
  else
    if gt (similarity normInput normResult) 0.6%Q then validated
    else corrected.

(** ** Provider results

    [results] is an array ([any[]]) whose elements are untyped ([any]) in
    the source.  A field of an element is optional here when the source
    guards its absence somewhere ([r.geometry?.],
    [Array.isArray(result.types)], [result.address_components || []]);
    [partial_match], which the provider sets only on partial matches, is
    only ever tested for truthiness and is its truth value.  The fields
    that the source reads without a guard everywhere are taken as the
    provider sends them: [formatted_address] is a string and [types] of a
    component is an array of strings.  A result without one of them is
    outside the embedding (on it [normalize] or [c.types.includes] throws
    a [TypeError]), and every statement about results is a statement
    about results of this shape. *)

Record AddressComponent : Set := {
  long_name : jsstring;
  short_name : jsstring;
  component_types : list jsstring      (* [types] of a component *)
}.

Record Geometry : Set := { location_type : jsstring }.

Record GeocodeResult : Set := {
  partial_match : bool;
  geometry : option Geometry;
  types : option (list jsstring);
  address_components : option (list AddressComponent);
  formatted_address : jsstring
}.

(** [types/Address.ts] *)
Record AddressComponents : Set := {
  street_number : option jsstring;
  street_name : option jsstring;
  city : option jsstring;
  state : option jsstring;
  zipCode : option jsstring
}.

(** [AddressValidationResult], in its three shapes built by the source:
    [status] with [exactMatch], with [possibleMatches], or with
    [message]. *)
Inductive AddressValidationResult : Set :=
  | VALIDATED (exact_formatted_address : jsstring)
              (components : AddressComponents)
  | CORRECTED (possibleMatches : list jsstring)
  | UNVERIFIABLE (message : jsstring).

(** ** Exceptions *)

Inductive JsError : Set := TypeError.

Inductive Result (A : Type) : Type :=
  | Ok (a : A)
  | Throw (e : JsError).
Arguments Ok {A} a.
Arguments Throw {A} e.

Definition bind {A B : Type} (m : Result A) (k : A -> Result B) : Result B :=
  match m with
  | Ok a => k a
  | Throw e => Throw e
  end.

Notation "x <- m ;; k" := (bind m (fun x => k))
  (at level 61, m at next level, right associativity).

(** [xs.filter(p)] for a callback that may throw. *)
Fixpoint filterM {A : Type} (p : A -> Result bool) (xs : list A)
    : Result (list A) :=
  match xs with
  | [] => Ok []
  | x :: t =>
      b <- p x ;;
      t' <- filterM p t ;;
      Ok (if b then x :: t' else t')
  end.

(** ** Component extraction *)

(** Truthiness of a string-or-undefined value. *)
Definition truthy (v : option jsstring) : bool :=
  match v with
  | Some (_ :: _) => true
  | _ => false
  end.

(** [a || b] *)
Definition orElse (a b : option jsstring) : option jsstring :=
  if truthy a then a else b.

(** The local [get] of [extractAddressComponents]. *)
Definition get (components : list AddressComponent) (type : jsstring)
    (useShort : bool) : option jsstring :=
  match find (fun c => includes (component_types c) type) components with
  | None => None
  | Some comp => Some (if useShort then short_name comp else long_name comp)
  end.

(** The record returned by [extractAddressComponents] when [components]
    is an array. *)
Definition extracted (cs : list AddressComponent) : AddressComponents :=
  {| street_number := get cs (js "street_number") false;
     street_name := get cs (js "route") false;
     city := orElse (get cs (js "locality") false)
                    (get cs (js "postal_town") false);
     state := get cs (js "administrative_area_level_1") true;
     zipCode := get cs (js "postal_code") false |}.

(** [components.find] on [undefined] is a [TypeError]. *)
Definition extractAddressComponents
    (components : option (list AddressComponent)) : Result AddressComponents :=
  match components with
  | None => Throw TypeError
  | Some cs => Ok (extracted cs)
  end.

(** ** Result classifier *)

(** [Array.isArray(result.types) && result.types.includes("country")] *)
Definition hasCountryType (result : GeocodeResult) : bool :=
  match types result with
  | Some ts => includes ts (js "country")
  | None => false
  end.

(** [result.address_components || []]: an array, even an empty one, is
    truthy. *)
Definition componentsOrEmpty (result : GeocodeResult) : list AddressComponent :=
  match address_components result with
  | Some cs => cs
  | None => []
  end.

(** The local [lacksDetail] of [isCountryOnlyResult]. *)
Definition lacksDetail (components : AddressComponents) : bool :=
  negb (truthy (street_number components))
  && negb (truthy (street_name components))
  && negb (truthy (city components))
  && negb (truthy (zipCode components)).

Definition isCountryOnlyResult (result : GeocodeResult) : Result bool :=
  if negb (partial_match result) then Ok false
  else
    let hasCountryType := hasCountryType result in
    components <- extractAddressComponents (Some (componentsOrEmpty result)) ;;
    let lacksDetail := lacksDetail components in
    Ok (hasCountryType || lacksDetail).

(** [r.geometry?.location_type] *)
Definition locationType (r : GeocodeResult) : option jsstring :=
  option_map location_type (geometry r).

(** [v === lit] for a possibly undefined [v]. *)
Definition isString (v : option jsstring) (lit : jsstring) : bool :=
  match v with
  | Some s => strictEq s lit
  | None => false
  end.

(** Callback of [exactMatches]. *)
Definition isExactMatch (r : GeocodeResult) : bool :=
  negb (partial_match r) && isString (locationType r) (js "ROOFTOP").

(** Callback of [possibleMatches]. *)
Definition isPossibleMatch (r : GeocodeResult) : bool :=
  partial_match r
  || existsb (isString (locationType r))
       [js "RANGE_INTERPOLATED"; js "GEOMETRIC_CENTER"; js "APPROXIMATE"].

Definition classifyGeocodeResults (results : list GeocodeResult)
    (originalInput : jsstring) : Result AddressValidationResult :=
  if length results =? 0 then Ok (UNVERIFIABLE (js "No address found."))
  else
    nonCountryResults <-
      filterM (fun r => b <- isCountryOnlyResult r ;; Ok (negb b)) results ;;
    if length nonCountryResults =? 0
    then Ok (UNVERIFIABLE (js "No precise US match found."))
    else
      let exactMatches := filter isExactMatch nonCountryResults in
      match exactMatches with
      | best :: _ =>
          components <- extractAddressComponents (address_components best) ;;
          let matchStatus :=
            compareAddresses originalInput (formatted_address best) in
          match matchStatus with
          | validated => Ok (VALIDATED (formatted_address best) components)
          | corrected => Ok (CORRECTED [formatted_address best])
          end
      | [] =>
          let possibleMatches := filter isPossibleMatch nonCountryResults in
          if 0 <? length possibleMatches
          then Ok (CORRECTED (map formatted_address possibleMatches))
          else Ok (UNVERIFIABLE (js "No precise US match found."))
      end.

(** ** The comparator as the specification words it

    Normalization: lowercase; strip periods and commas; apply the whole-word
    abbreviation map; collapse runs of whitespace to one space; trim.
    Decision: equal normalized strings, or word-set overlap above 0.6. *)

Definition stripPunctuation (s : jsstring) : jsstring :=
  filter (fun c => negb (isPunct c)) s.

Definition abbreviations : list (jsstring * jsstring) :=
  [ (js "road", js "rd"); (js "street", js "st");
    (js "avenue", js "ave"); (js "mountain", js "mtn") ].

(** A word of the map is replaced by its abbreviation, any other word is
    kept. *)
Definition abbreviate (w : jsstring) : jsstring :=
  match find (fun p => strictEq (fst p) w) abbreviations with
  | Some p => snd p
  | None => w
  end.

(** [mapWords f cur s] rewrites every maximal run of word characters of
    [s] by [f]; [cur] is the part of the current run read so far. *)
Fixpoint mapWords (f : jsstring -> jsstring) (cur s : jsstring) : jsstring :=
  match s with
  | [] => f cur
  | c :: t =>
      if isWordChar c then mapWords f (cur ++ [c]) t
      else f cur ++ c :: mapWords f [] t
  end.

(** Every maximal run of whitespace becomes one space; [inRun] tells
    that the previous character was whitespace. *)
Fixpoint collapseRuns (inRun : bool) (s : jsstring) : jsstring :=
  match s with
  | [] => []
  | c :: t =>
      if isSpace c
      then (if inRun then collapseRuns true t
            else " "%char :: collapseRuns true t)
      else c :: collapseRuns false t
  end.

Definition spec_normalize (s : jsstring) : jsstring :=
  trim (collapseRuns false
         (mapWords abbreviate [] (stripPunctuation (toLowerCase s)))).

(** Words of a normalized string, duplicates collapsed. *)
Definition spec_words (norm : jsstring) : set jsstring :=
  nodup jsstring_dec (split " "%char norm).

Definition spec_similarity (normInput normResult : jsstring) : Q :=
  let a := spec_words normInput in
  let b := spec_words normResult in
  (inject_Z (Z.of_nat (length (set_inter jsstring_dec a b)))
   / inject_Z (Z.of_nat (Nat.max (length a) (length b))))%Q.

Definition spec_compare (input candidateFormatted : jsstring) : MatchStatus :=
  let a := spec_normalize input in
  let b := spec_normalize candidateFormatted in
  if jsstring_dec a b then validated
  else if Qlt_le_dec 0.6%Q (spec_similarity a b) then validated
  else corrected.

(** Replacement of the one word [w] by [r]: what one [replace] of
    [normalize] does to a run of word characters. *)
Definition subst (w r a : jsstring) : jsstring :=
  if jsstring_dec a w then r else a.

(** ** Predicates on strings used by the proofs *)

(** Strings of word characters. *)
Definition allWord (a : jsstring) : Prop := forallb isWordChar a = true.

(** Every whitespace character is a space and follows a non-whitespace
    character ([inRun]: the previous character was whitespace). *)
Fixpoint singleSpaced (inRun : bool) (s : jsstring) : bool :=
  match s with
  | [] => true
  | c :: t =>
      if isSpace c
      then negb inRun && Ascii.eqb c " "%char && singleSpaced true t
      else singleSpaced false t
  end.


(** ** The classifier without exceptions, and the specification's wording *)

(** Value of [isCountryOnlyResult], which never throws. *)
Definition countryOnly (r : GeocodeResult) : bool :=
  partial_match r
  && (hasCountryType r || lacksDetail (extracted (componentsOrEmpty r))).

(** Value of [nonCountryResults] in [classifyGeocodeResults]. *)
Definition nonCountryResults (results : list GeocodeResult)
    : list GeocodeResult :=
  filter (fun r => negb (countryOnly r)) results.

(** A field of the extracted components is absent. *)
Definition absent (v : option jsstring) : Prop := v = None.

(** A field of the extracted components is absent or the empty string. *)
Definition absentOrEmpty (v : option jsstring) : Prop :=
  v = None \/ v = Some [].

(** The country-only fallback as the specification words it: a partial
    match that is typed "country" or whose street number, street name,
    city and postal code are all absent. *)
Definition spec_countryOnly (r : GeocodeResult) : Prop :=
  let c := extracted (componentsOrEmpty r) in
  partial_match r = true
  /\ (hasCountryType r = true
      \/ (absent (street_number c) /\ absent (street_name c)
          /\ absent (city c) /\ absent (zipCode c))).

Definition geometryOf (lt : string) : option Geometry :=
  Some {| location_type := js lt |}.

(** A partial match whose only component is a route with an empty name. *)
Definition emptyRoute : GeocodeResult :=
  {| partial_match := true;
     geometry := geometryOf "APPROXIMATE";
     types := Some [js "route"];
     address_components :=
       Some [ {| long_name := js ""; short_name := js "";
                 component_types := [js "route"] |} ];
     formatted_address := js "USA" |}.

Definition rooftop (formatted : string)
    (components : option (list AddressComponent)) : GeocodeResult :=
  {| partial_match := false;
     geometry := geometryOf "ROOFTOP";
     types := Some [js "street_address"];
     address_components := components;
     formatted_address := js formatted |}.

Definition oakAvenue : GeocodeResult :=
  rooftop "456 Oak Avenue, Other City, NY" (Some []).

Definition mainStreet : GeocodeResult := rooftop "Main Street" (Some []).

Definition mainStAnytown : GeocodeResult :=
  rooftop "123 Main St, Anytown, CA 90210, USA" (Some []).

(** A partial match without [address_components]. *)
Definition partialWithoutComponents : GeocodeResult :=
  {| partial_match := true;
     geometry := geometryOf "APPROXIMATE";
     types := None;
     address_components := None;
     formatted_address := js "1 Main St" |}.

(** A rooftop result without [address_components]. *)
Definition rooftopWithoutComponents : GeocodeResult :=
  {| partial_match := false;
     geometry := geometryOf "ROOFTOP";
     types := None;
     address_components := None;
     formatted_address := js "1 Main St" |}.

(** A non-partial result for the country itself. *)
Definition unitedStates : GeocodeResult :=
  {| partial_match := false;
     geometry := geometryOf "APPROXIMATE";
     types := Some [js "country"; js "political"];
     address_components :=
       Some [ {| long_name := js "United States"; short_name := js "US";
                 component_types := [js "country"; js "political"] |} ];
     formatted_address := js "United States" |}.

Definition componentOf (name type : string) : AddressComponent :=
  {| long_name := js name; short_name := js name;
     component_types := [js type] |}.

(** The candidate of the first scenario of the specification. *)
Definition googleplex : GeocodeResult :=
  rooftop "1600 Amphitheatre Pkwy, Mountain View, CA 94043, USA"
    (Some [ componentOf "1600" "street_number";
            componentOf "Amphitheatre Pkwy" "route";
            componentOf "Mountain View" "locality";
            componentOf "CA" "administrative_area_level_1";
            componentOf "94043" "postal_code" ]).

Definition springfield (st : string) : GeocodeResult :=
  {| partial_match := true;
     geometry := geometryOf "APPROXIMATE";
     types := Some [js "street_address"];
     address_components :=
       Some [ {| long_name := js "Main St"; short_name := js "Main St";
                 component_types := [js "route"] |} ];
     formatted_address := js ("123 Main St, Springfield, " ++ st) |}.

(** The country-only fallback as the source decides it: a missing field
    is one that is absent or empty. *)
Definition countryOnlyFallback (r : GeocodeResult) : Prop :=
  let c := extracted (componentsOrEmpty r) in
  partial_match r = true
  /\ (hasCountryType r = true
      \/ (absentOrEmpty (street_number c) /\ absentOrEmpty (street_name c)
          /\ absentOrEmpty (city c) /\ absentOrEmpty (zipCode c))).

(** Section 8 of the specification: a list with at least one ROOFTOP,
    non-partial candidate whose formatted address normalizes like the
    input is classified as exact. *)
Definition spec_exact_property (results : list GeocodeResult)
    (input : jsstring) : Prop :=
  (exists r, In r results
             /\ partial_match r = false
             /\ locationType r = Some (js "ROOFTOP")
             /\ normalize (formatted_address r) = normalize input) ->
  exists formatted components,
    classifyGeocodeResults results input = Ok (VALIDATED formatted components).

(** ** HTTP errors ([middleware/errorHandler.ts])

    The logger calls of the source write a line to the console and do not
    change any value; they are left out of the embedding. *)

(** [details] of an [HttpError]: [undefined], or the [message] of a
    caught error. *)
Inductive Details : Set :=
  | NoDetails
  | MessageOf (e : JsError).

(** [statusCode] is [None] when the constructor received [undefined]. *)
Record HttpError : Set := {
  statusCode : option N;
  message : jsstring;
  details : Details
}.

(** [new BadRequestError(message)] *)
Definition BadRequestError (message : jsstring) : HttpError :=
  {| statusCode := Some 400%N; message := message; details := NoDetails |}.

(** Values thrown in the service: an [HttpError], an error of axios with
    its [response?.status], or another error, whose [message] is a
    string. *)
Inductive Thrown : Set :=
  | ThrownHttp (e : HttpError)
  | ThrownAxios (responseStatus : option N)
  | ThrownOther (e : JsError).

Inductive Outcome (A : Type) : Type :=
  | Returned (a : A)
  | Raised (t : Thrown).
Arguments Returned {A} a.
Arguments Raised {A} t.

(** A [TypeError] of the classifier, as a thrown value. *)
Definition ofResult {A : Type} (r : Result A) : Outcome A :=
  match r with
  | Ok a => Returned a
  | Throw e => Raised (ThrownOther e)
  end.

(** Body of a response: the controller's success body (its [metadata] is
    a constant) or the error body of [errorHandler]. *)
Inductive Body : Set :=
  | SuccessBody (original_input : jsstring) (result : AddressValidationResult)
  | ErrorBody (error : jsstring) (errorDetails : Details).

(** What a handler sends: [status] is the argument of [res.status]
    ([None] for [undefined]), [body] the argument of [res.json]. *)
Record HttpResponse : Set := {
  status : option N;
  body : Body
}.

Definition errorHandler (err : Thrown) : HttpResponse :=
  match err with
  | ThrownHttp e =>
      {| status := statusCode e; body := ErrorBody (message e) (details e) |}
  | _ =>
      {| status := Some 500%N;
         body := ErrorBody (js "Internal server error") NoDetails |}
  end.

(** ** One-character classes as patterns *)

(** [/[cls]/g] *)
Definition re_class (cls : ascii -> bool) : regex := fun _ s =>
  match s with
  | c :: _ => if cls c then Some 1 else None
  | [] => None
  end.

Fixpoint classRun (cls : ascii -> bool) (s : jsstring) : nat :=
  match s with
  | c :: t => if cls c then S (classRun cls t) else 0
  | [] => 0
  end.

(** [/[cls]+/g] (greedy). *)
Definition re_plus (cls : ascii -> bool) : regex := fun _ s =>
  match classRun cls s with
  | 0 => None
  | n => Some n
  end.

(** [re.test(s)]: the pattern matches somewhere in [s]. *)
Fixpoint testFrom (re : regex) (prev : option ascii) (s : jsstring) : bool :=
  match s with
  | [] => false
  | c :: t =>
      match re prev s with
      | Some (S _) => true
      | _ => testFrom re (Some c) t
      end
  end.

Definition test (re : regex) (s : jsstring) : bool := testFrom re None s.

(** ** Payload validation (the middleware [validateAddressPayload]) *)

(** [\u0000] *)
Definition isNul (c : ascii) : bool := inRange 0 0 c.

(** [[\x00-\x08\x0B-\x0C\x0E-\x1F\x7F]] *)
Definition isDisallowedControl (c : ascii) : bool :=
  inRange 0 8 c || inRange 11 12 c || inRange 14 31 c || inRange 127 127 c.

(** [[\r\n\t]] *)
Definition isCrLfTab (c : ascii) : bool :=
  inRange 13 13 c || inRange 10 10 c || inRange 9 9 c.

Definition MAX_ADDRESS_LENGTH : nat := 512.

(** What the middleware hands to [next]: an error, or nothing after it has
    stored the normalized address in [req.body.address]. *)
Inductive Next : Set :=
  | NextError (e : HttpError)
  | NextWith (address : jsstring).

(** [raw] is [None] when [req.body?.address] is not a string. *)
Definition validateAddressPayload (raw : option jsstring) : Next :=
  match raw with
  | None => NextError (BadRequestError (js "'address' must be a string"))
  | Some raw =>
      let withoutNull := replace (re_class isNul) (js "") raw in
      if test (re_class isDisallowedControl) withoutNull
      then NextError
             (BadRequestError
                (js "'address' contains invalid control characters"))
      else
        let whitespaceNormalized :=
          replace (re_plus isCrLfTab) (js " ") withoutNull in
        let collapsed := replace re_ws (js " ") whitespaceNormalized in
        let normalized := trim collapsed in
        if length normalized =? 0
        then NextError
               (BadRequestError (js "'address' must be a non-empty string"))
        else
          let originalLength := length raw in
          if MAX_ADDRESS_LENGTH <? originalLength
          then NextError
                 (BadRequestError (js "'address' exceeds 512 characters"))
          else NextWith normalized
  end.

(** ** The request URL *)

(** The characters [encodeURIComponent] leaves alone. *)
Definition isUriUnreserved (c : ascii) : bool :=
  inRange 48 57 c || inRange 65 90 c || inRange 97 122 c
  || existsb (Ascii.eqb c) (js "-_.!~*'()").

Definition hexDigit (n : N) : ascii :=
  nth (N.to_nat n) (js "0123456789ABCDEF") "0"%char.

(** [%XX] for one octet. *)
Definition percentEncode (octet : N) : jsstring :=
  ["%"%char; hexDigit (octet / 16); hexDigit (octet mod 16)].

(** UTF-8 octets of a code unit below 256. *)
Definition utf8 (c : ascii) : list N :=
  let n := N_of_ascii c in
  if (n <? 128)%N then [n] else [192 + n / 64; 128 + n mod 64]%N.

(** [encodeURIComponent(s)]; a string of code units below 256 has no
    surrogate, so the call does not throw. *)
Definition encodeURIComponent (s : jsstring) : jsstring :=
  flat_map
    (fun c =>
       if isUriUnreserved c then [c] else flat_map percentEncode (utf8 c))
    s.

(** The query of the [url] of [validateUSAddress], after the [?]. *)
Definition queryOf (address apiKey : jsstring) : jsstring :=
  js "address=" ++ encodeURIComponent address
  ++ js "&components=country:US&key=" ++ apiKey.

Definition urlOf (geocodingUrl address apiKey : jsstring) : jsstring :=
  geocodingUrl ++ js "?" ++ queryOf address apiKey.

(** ** The geocoding service *)

Record StatusMapping : Set := {
  code : N;
  msg : jsstring;
  log : jsstring
}.

(** The own properties of [statusToError]. *)
Definition statusToError : list (jsstring * StatusMapping) :=
  [ (js "OVER_QUERY_LIMIT",
     {| code := 429; msg := js "Geocoding quota exceeded";
        log := js "geocoding.over_query_limit" |});
    (js "OVER_DAILY_LIMIT",
     {| code := 403;
        msg := js "Geocoding request denied: invalid/missing key, billing, or usage cap";
        log := js "geocoding.over_daily_limit" |});
    (js "REQUEST_DENIED",
     {| code := 403; msg := js "Geocoding request denied";
        log := js "geocoding.request_denied" |});
    (js "INVALID_REQUEST",
     {| code := 400;
        msg := js "Invalid geocoding request: missing or malformed query";
        log := js "geocoding.invalid_request" |});
    (js "UNKNOWN_ERROR",
     {| code := 503; msg := js "Geocoding service error, try again later";
        log := js "geocoding.unknown_error" |}) ]%N.

(** The property names every object literal inherits from
    [Object.prototype]; each holds a function or an object, which is
    truthy and has no [code], [msg] or [log]. *)
Definition objectPrototypeNames : list jsstring :=
  [ js "constructor"; js "__defineGetter__"; js "__defineSetter__";
    js "hasOwnProperty"; js "__lookupGetter__"; js "__lookupSetter__";
    js "isPrototypeOf"; js "propertyIsEnumerable"; js "toString";
    js "valueOf"; js "__proto__"; js "toLocaleString" ].

(** Value of [statusToError[status]]. *)
Inductive Lookup : Set :=
  | Own (mapping : StatusMapping)
  | Inherited
  | Undefined.

Definition lookupStatus (status : jsstring) : Lookup :=
  match find (fun p => strictEq (fst p) status) statusToError with
  | Some p => Own (snd p)
  | None =>
      if includes objectPrototypeNames status then Inherited else Undefined
  end.

(** [null] is [None]. *)
Definition mapGoogleStatus (status : jsstring)
    : Outcome (option AddressValidationResult) :=
  if strictEq status (js "OK") then Returned None
  else if strictEq status (js "ZERO_RESULTS")
  then Returned (Some (UNVERIFIABLE (js "No address found.")))
  else
    match lookupStatus status with
    | Own mapping =>
        Raised (ThrownHttp {| statusCode := Some (code mapping);
                              message := msg mapping;
                              details := NoDetails |})
    | Inherited =>
        (* [mapping.code] and [mapping.msg] are [undefined] *)
        Raised (ThrownHttp {| statusCode := None; message := js "";
                              details := NoDetails |})
    | Undefined =>
        Raised (ThrownHttp
                  {| statusCode := Some 502%N;
                     message := js "Unexpected geocoding status: " ++ status;
                     details := NoDetails |})
    end.

(** The error thrown by [rethrowAxiosAsHttpError(err)]. *)
Definition rethrowAxiosAsHttpError (err : Thrown) : Thrown :=
  match err with
  | ThrownHttp e => ThrownHttp e
  | ThrownAxios responseStatus =>
      let http c m :=
        ThrownHttp {| statusCode := Some c; message := js m;
                      details := NoDetails |} in
      match responseStatus with
      | Some st =>
          if (st =? 403)%N then http 403%N "Geocoding access forbidden"%string
          else if (st =? 429)%N then http 429%N "Geocoding rate limited"%string
          else if negb (st =? 0)%N && (500 <=? st)%N
          then http 503%N "Geocoding upstream error"%string
          else http 502%N "Geocoding upstream unavailable"%string
      | None => http 502%N "Geocoding upstream unavailable"%string
      end
  | ThrownOther e =>
      ThrownHttp {| statusCode := Some 500%N;
                    message := js "Unexpected error during geocoding";
                    details := MessageOf e |}
  end.

(** [data] of the provider's response, an object whose [status] is a
    string; [data.results] may be missing. *)
Record GeocodeData : Set := {
  data_status : jsstring;
  data_results : option (list GeocodeResult)
}.

(** Settlement of [axios.get(url)]: a response, an error of axios with
    its [response?.status], or another error. *)
Inductive AxiosGet : Set :=
  | Resolved (data : GeocodeData)
  | RejectedAxios (responseStatus : option N)
  | RejectedOther (e : JsError).

(** [classifyGeocodeResults(data.results, address)]: a missing
    [data.results] is caught by the [!results] test of the classifier. *)
Definition classifyResults (results : option (list GeocodeResult))
    (address : jsstring) : Result AddressValidationResult :=
  match results with
  | None => Ok (UNVERIFIABLE (js "No address found."))
  | Some rs => classifyGeocodeResults rs address
  end.

(** [try { ... } catch (err) { rethrowAxiosAsHttpError(err) }] *)
Definition tryRethrow {A : Type} (o : Outcome A) : Outcome A :=
  match o with
  | Returned a => Returned a
  | Raised err => Raised (rethrowAxiosAsHttpError err)
  end.

(** [axiosGet] is the provider seen through [axios.get]; [geocodingUrl] is
    [config.geocodingUrl].  The [url] is built before the [try]:
    [encodeURIComponent] throws a [URIError] on an unpaired surrogate
    and that error would leave the function as it is; a string of code
    units below 256 has no surrogate, so here the [url] is a value and
    the errors are those of the [try] block. *)
Definition validateUSAddress (axiosGet : jsstring -> AxiosGet)
    (geocodingUrl address apiKey : jsstring)
    : Outcome AddressValidationResult :=
  let url := urlOf geocodingUrl address apiKey in
  tryRethrow
    match axiosGet url with
    | RejectedAxios responseStatus => Raised (ThrownAxios responseStatus)
    | RejectedOther e => Raised (ThrownOther e)
    | Resolved data =>
        match mapGoogleStatus (data_status data) with
        | Raised err => Raised err
        | Returned (Some statusOutcome) => Returned statusOutcome
        | Returned None =>
            ofResult (classifyResults (data_results data) address)
        end
    end.

(** ** The endpoint

    [router.post("/", validateAddressPayload,
    asyncHandler(validateAddressController))], with [errorHandler] behind
    it: an error given to [next] and a rejection of the controller both
    reach [errorHandler]. *)

Definition validateAddressController (axiosGet : jsstring -> AxiosGet)
    (geocodingUrl googleApiKey address : jsstring) : Outcome HttpResponse :=
  match validateUSAddress axiosGet geocodingUrl address googleApiKey with
  | Returned result =>
      Returned {| status := Some 200%N; body := SuccessBody address result |}
  | Raised err => Raised err
  end.

Definition postValidateAddress (axiosGet : jsstring -> AxiosGet)
    (geocodingUrl googleApiKey : jsstring) (raw : option jsstring)
    : HttpResponse :=
  match validateAddressPayload raw with
  | NextError e => errorHandler (ThrownHttp e)
  | NextWith address =>
      match validateAddressController axiosGet geocodingUrl googleApiKey
              address with
      | Returned response => response
      | Raised err => errorHandler err
      end
  end.

(** ** Predicates used to state further properties *)

(** The component carries the tag [type]. *)
Definition tagged (type : jsstring) (c : AddressComponent) : Prop :=
  includes (component_types c) type = true.

(** [c] is the first component of [cs] that carries the tag [type]. *)
Definition firstTagged (type : jsstring) (cs : list AddressComponent)
    (c : AddressComponent) : Prop :=
  exists before after,
    cs = before ++ c :: after
    /\ (forall x, In x before -> ~ tagged type x)
    /\ tagged type c.

Definition california : AddressComponent :=
  {| long_name := js "California"; short_name := js "CA";
     component_types := [js "administrative_area_level_1"; js "political"] |}.

(** Components with two states; the first one counts. *)
Definition twoStates : list AddressComponent :=
  [ componentOf "Mountain View" "locality"; california;
    {| long_name := js "Texas"; short_name := js "TX";
       component_types := [js "administrative_area_level_1"] |} ].

(** The status codes the endpoint answers with. *)
Definition answeredStatuses : list (option N) :=
  [Some 200; Some 400; Some 403; Some 429; Some 500; Some 502; Some 503]%N.

(** The provider never answers with a status named like a property
    inherited from [Object.prototype]. *)
Definition plainStatuses (axiosGet : jsstring -> AxiosGet) : Prop :=
  forall url data,
    axiosGet url = Resolved data ->
    includes objectPrototypeNames (data_status data) = false.

(** A provider that answers every request with [data]. *)
Definition answering (data : GeocodeData) : jsstring -> AxiosGet :=
  fun _ => Resolved data.

(** Every maximal run of characters of the class [cls] becomes one
    space; [inRun] tells that the previous character was in the class. *)
Fixpoint collapseClass (cls : ascii -> bool) (inRun : bool) (s : jsstring)
    : jsstring :=
  match s with
  | [] => []
  | c :: t =>
      if cls c
      then (if inRun then collapseClass cls true t
            else " "%char :: collapseClass cls true t)
      else c :: collapseClass cls false t
  end.

(** The C0 control characters and DEL. *)
Definition isControl (c : ascii) : bool :=
  inRange 0 31 c || inRange 127 127 c.

(** A character that a blank payload may contain: NUL, or whitespace
    that the control test lets through. *)
Definition isBlank (c : ascii) : bool :=
  isNul c || (isSpace c && negb (isDisallowedControl c)).

(** ** Strings of any UTF-16 code units

    The normalization of [compareAddresses] once more, on strings whose
    code units range over all of UTF-16; a code unit is a number below
    65536.  The patterns and [trim] are total here.  [toLowerCase] works
    on code points (a leading surrogate followed by a trailing one is one
    code point) and is embedded for the code points U+0000-U+00FF, for
    unpaired surrogates and for the Deseret letters U+10400-U+1044F; on a
    string with another code point it is [None], and so is [normalize]. *)

Module Utf16.

Definition jsstring := list N.

(** A string of the 8-bit embedding, as code units. *)
Definition ofLatin1 (s : list ascii) : jsstring := map N_of_ascii s.

Definition inRange (lo hi c : N) : bool := ((lo <=? c) && (c <=? hi))%N.

(** [\w]: [A-Za-z0-9_] (the patterns have neither the [u] nor the [i]
    flag). *)
Definition isWordChar (c : N) : bool :=
  inRange 48 57 c || inRange 65 90 c || inRange 95 95 c || inRange 97 122 c.

(** [\s] and [trim]: WhiteSpace and LineTerminator of ECMAScript, that is
    TAB, LF, VT, FF, CR, SPACE, U+00A0, U+1680, U+2000-U+200A, U+2028,
    U+2029, U+202F, U+205F, U+3000 and U+FEFF. *)
Definition isSpace (c : N) : bool :=
  inRange 9 13 c || inRange 32 32 c || inRange 160 160 c
  || inRange 0x1680 0x1680 c || inRange 0x2000 0x200A c
  || inRange 0x2028 0x2029 c || inRange 0x202F 0x202F c
  || inRange 0x205F 0x205F c || inRange 0x3000 0x3000 c
  || inRange 0xFEFF 0xFEFF c.

(** [[\.,]] *)
Definition isPunct (c : N) : bool := (c =? 46)%N || (c =? 44)%N.

Definition isLeadSurrogate (c : N) : bool := inRange 0xD800 0xDBFF c.

Definition isTrailSurrogate (c : N) : bool := inRange 0xDC00 0xDFFF c.

(** The code points of a string (StringToCodePoints of ECMAScript): a
    leading surrogate with the trailing surrogate after it is one code
    point, any other code unit is a code point of its own. *)
Fixpoint codePoints (s : jsstring) : list N :=
  match s with
  | [] => []
  | c :: t =>
      match t with
      | d :: t' =>
          if isLeadSurrogate c && isTrailSurrogate d
          then (0x10000 + (c - 0xD800) * 0x400 + (d - 0xDC00))%N
               :: codePoints t'
          else c :: codePoints t
      | [] => [c]
      end
  end.

(** The code units of a code point. *)
Definition codeUnits (cp : N) : jsstring :=
  if (cp <? 0x10000)%N then [cp]
  else [0xD800 + (cp - 0x10000) / 0x400; 0xDC00 + (cp - 0x10000) mod 0x400]%N.

(** Lower-case mapping of a code point: A-Z, U+00C0-U+00D6 and
    U+00D8-U+00DE move up by 32 and the other code points below 256 stay;
    a surrogate stays; the Deseret capitals U+10400-U+10427 move up by 40
    and the Deseret small letters stay.  None of these mappings depends
    on the neighbouring characters. *)
Definition lowerCodePoint (cp : N) : option N :=
  if inRange 65 90 cp || inRange 192 214 cp || inRange 216 222 cp
  then Some (cp + 32)%N
  else if (cp <? 256)%N then Some cp
  else if inRange 0xD800 0xDFFF cp then Some cp
  else if inRange 0x10400 0x10427 cp then Some (cp + 40)%N
  else if inRange 0x10428 0x1044F cp then Some cp
  else None.

Fixpoint lowerCodePoints (cps : list N) : option jsstring :=
  match cps with
  | [] => Some []
  | cp :: t =>
      match lowerCodePoint cp, lowerCodePoints t with
      | Some l, Some t' => Some (codeUnits l ++ t')
      | _, _ => None
      end
  end.

(** [s.toLowerCase()] *)
Definition toLowerCase (s : jsstring) : option jsstring :=
  lowerCodePoints (codePoints s).

(** Patterns and the scan of [replace], as for the 8-bit strings. *)
Definition regex := option N -> jsstring -> option nat.

Fixpoint replaceFrom (re : regex) (r : jsstring) (prev : option N)
    (skip : nat) (s : jsstring) : jsstring :=
  match s with
  | [] => []
  | c :: t =>
      match skip with
      | S k => replaceFrom re r (Some c) k t
      | O =>
          match re prev s with
          | Some (S n) => r ++ replaceFrom re r (Some c) n t
          | _ => c :: replaceFrom re r (Some c) 0 t
          end
      end
  end.

Definition replace (re : regex) (r : jsstring) (s : jsstring) : jsstring :=
  replaceFrom re r None 0 s.

(** [/[\.,]/g] *)
Definition re_punct : regex := fun _ s =>
  match s with
  | c :: _ => if isPunct c then Some 1 else None
  | [] => None
  end.

Definition isWord (o : option N) : bool :=
  match o with Some c => isWordChar c | None => false end.

Definition wordBoundary (before after : option N) : bool :=
  xorb (isWord before) (isWord after).

Fixpoint startsWith (w s : jsstring) : bool :=
  match w, s with
  | [], _ => true
  | a :: w', b :: s' => (a =? b)%N && startsWith w' s'
  | _ :: _, [] => false
  end.

Definition lastOr (prev : option N) (w : jsstring) : option N :=
  fold_left (fun _ c => Some c) w prev.

(** [/\b(w)\b/g] for a literal [w]. *)
Definition re_word (w : jsstring) : regex := fun prev s =>
  if wordBoundary prev (hd_error s)
     && startsWith w s
     && wordBoundary (lastOr prev w) (hd_error (skipn (length w) s))
  then Some (length w)
  else None.

Fixpoint wsRun (s : jsstring) : nat :=
  match s with
  | c :: t => if isSpace c then S (wsRun t) else 0
  | [] => 0
  end.

(** [/\s+/g] (greedy). *)
Definition re_ws : regex := fun _ s =>
  match wsRun s with
  | 0 => None
  | n => Some n
  end.

Fixpoint trimStart (s : jsstring) : jsstring :=
  match s with
  | c :: t => if isSpace c then trimStart t else s
  | [] => []
  end.

Fixpoint trimEnd (s : jsstring) : jsstring :=
  match s with
  | [] => []
  | c :: t =>
      match trimEnd t with
      | [] => if isSpace c then [] else [c]
      | t' => c :: t'
      end
  end.

Definition trim (s : jsstring) : jsstring := trimEnd (trimStart s).

(** The passes of [normalize] after [toLowerCase]. *)
Definition afterLowerCase (s : jsstring) : jsstring :=
  trim
    (replace re_ws (ofLatin1 (js " "))
      (replace (re_word (ofLatin1 (js "mountain"))) (ofLatin1 (js "mtn"))
        (replace (re_word (ofLatin1 (js "avenue"))) (ofLatin1 (js "ave"))
          (replace (re_word (ofLatin1 (js "street"))) (ofLatin1 (js "st"))
            (replace (re_word (ofLatin1 (js "road"))) (ofLatin1 (js "rd"))
              (replace re_punct (ofLatin1 (js "")) s)))))).

(** The local [normalize] of [compareAddresses]. *)
Definition normalize (s : jsstring) : option jsstring :=
  option_map afterLowerCase (toLowerCase s).

End Utf16.


(** * Properties *)

(** ** Character classes *)

Ltac by_cases_on_char c :=
  destruct c as [[] [] [] [] [] [] [] []]; try reflexivity; try discriminate.

Lemma toLower1_idem c : toLower1 (toLower1 c) = toLower1 c.
Proof. by_cases_on_char c. Qed.

Lemma word_not_space c : isWordChar c = true -> isSpace c = false.
Proof. by_cases_on_char c. Qed.

Lemma space_not_word c : isSpace c = true -> isWordChar c = false.
Proof. by_cases_on_char c. Qed.

Lemma strictEq_true a b : strictEq a b = true <-> a = b.
Proof.
  unfold strictEq. destruct (jsstring_dec a b); split; congruence.
Qed.

Lemma strictEq_refl a : strictEq a a = true.
Proof. now apply strictEq_true. Qed.

(** ** The three patterns, as list functions *)

Lemma replace_punct s : replace re_punct (js "") s = stripPunctuation s.
Proof.
  unfold replace. generalize (@None ascii).
  induction s as [|c t IH]; intros prev; simpl; [reflexivity|].
  destruct (isPunct c); simpl; now rewrite IH.
Qed.

Lemma re_ws_cons prev c t :
  re_ws prev (c :: t) = if isSpace c then Some (S (wsRun t)) else None.
Proof. unfold re_ws. simpl. now destruct (isSpace c). Qed.

Lemma replace_ws_from s :
  forall prev,
    replaceFrom re_ws (js " ") prev (wsRun s) s = collapseRuns true s
    /\ replaceFrom re_ws (js " ") prev 0 s = collapseRuns false s.
Proof.
  induction s as [|c t IH]; intros prev; [now split|].
  pose proof (IH (Some c)) as [IHrun IH0].
  cbn [wsRun collapseRuns].
  destruct (isSpace c) eqn:Hc; cbn [replaceFrom]; rewrite ?re_ws_cons, ?Hc.
  - split; [exact IHrun|]. now rewrite IHrun.
  - split; now rewrite IH0.
Qed.

Lemma replace_ws s : replace re_ws (js " ") s = collapseRuns false s.
Proof. apply replace_ws_from. Qed.

(** ** Runs of word characters *)

Lemma allWord_cons c a :
  allWord (c :: a) <-> isWordChar c = true /\ allWord a.
Proof. unfold allWord. simpl. now rewrite andb_true_iff. Qed.

Lemma allWord_app a b : allWord (a ++ b) <-> allWord a /\ allWord b.
Proof. unfold allWord. now rewrite forallb_app, andb_true_iff. Qed.

(** Induction over a string cut at its non-word characters. *)
Lemma word_run_ind (P : jsstring -> Prop) :
  (forall a, allWord a -> P a) ->
  (forall a c t, allWord a -> isWordChar c = false -> P t -> P (a ++ c :: t)) ->
  forall s, P s.
Proof.
  intros Hbase Hstep s.
  enough (H : forall a, allWord a -> P (a ++ s)) by (apply (H []); reflexivity).
  induction s as [|x t IH]; intros a Ha.
  - rewrite app_nil_r. now apply Hbase.
  - destruct (isWordChar x) eqn:Hx.
    + replace (a ++ x :: t) with ((a ++ [x]) ++ t)
        by (now rewrite <- app_assoc).
      apply IH. apply allWord_app. split; [assumption|].
      apply allWord_cons. now split.
    + apply Hstep; try assumption. apply (IH []). reflexivity.
Qed.

Lemma mapWords_word f a : forall cur s,
  allWord a -> mapWords f cur (a ++ s) = mapWords f (cur ++ a) s.
Proof.
  induction a as [|c a IH]; intros cur s Ha; simpl.
  - now rewrite app_nil_r.
  - apply allWord_cons in Ha as [Hc Ha]. rewrite Hc, IH by assumption.
    now rewrite <- app_assoc.
Qed.

Lemma mapWords_allWord f cur a :
  allWord a -> mapWords f cur a = f (cur ++ a).
Proof.
  intros Ha. rewrite <- (app_nil_r a) at 1. now rewrite mapWords_word.
Qed.

Lemma mapWords_nonword f cur c t :
  isWordChar c = false ->
  mapWords f cur (c :: t) = f cur ++ c :: mapWords f [] t.
Proof. intros Hc. simpl. now rewrite Hc. Qed.

Lemma mapWords_run f a c t :
  allWord a -> isWordChar c = false ->
  mapWords f [] (a ++ c :: t) = f a ++ c :: mapWords f [] t.
Proof.
  intros Ha Hc. rewrite mapWords_word by assumption.
  now rewrite mapWords_nonword.
Qed.

Lemma mapWords_compose f g s :
  (forall a, allWord a -> allWord (g a)) ->
  mapWords f [] (mapWords g [] s) = mapWords (fun a => f (g a)) [] s.
Proof.
  intros Hg. induction s as [a Ha | a c t Ha Hc IH] using word_run_ind.
  - rewrite (mapWords_allWord g [] a Ha).
    rewrite (mapWords_allWord (fun a => f (g a)) [] a Ha). simpl.
    now rewrite mapWords_allWord by (now apply Hg).
  - rewrite (mapWords_run g a c t Ha Hc).
    rewrite (mapWords_run (fun a => f (g a)) a c t Ha Hc).
    rewrite mapWords_run by (try apply Hg; assumption). now rewrite IH.
Qed.

Lemma mapWords_ext f g :
  (forall a, f a = g a) -> forall s cur, mapWords f cur s = mapWords g cur s.
Proof.
  intros Hfg. induction s as [|c t IH]; intros cur; simpl.
  - apply Hfg.
  - destruct (isWordChar c); [apply IH|]. now rewrite Hfg, IH.
Qed.

(** ** The scan of [replace] *)

Lemma lastOr_cons prev c x : lastOr prev (c :: x) = lastOr (Some c) x.
Proof. reflexivity. Qed.

Lemma replaceFrom_skip re r x : forall rest prev,
  replaceFrom re r prev (length x) (x ++ rest)
  = replaceFrom re r (lastOr prev x) 0 rest.
Proof.
  induction x as [|c x IH]; intros rest prev; [reflexivity|].
  simpl. now rewrite IH.
Qed.

Lemma isWord_lastOr a : forall prev,
  allWord a -> a <> [] \/ isWord prev = true -> isWord (lastOr prev a) = true.
Proof.
  induction a as [|c a IH]; intros prev Ha Hne.
  - simpl. destruct Hne as [Hne|Hp]; [now elim Hne | exact Hp].
  - apply allWord_cons in Ha as [Hc Ha]. rewrite lastOr_cons.
    apply IH; [assumption|]. now right.
Qed.

Lemma startsWith_app w s : startsWith w (w ++ s) = true.
Proof.
  induction w as [|x w IH]; simpl; [reflexivity|].
  now rewrite Ascii.eqb_refl.
Qed.

(** A run of word characters that ends where [w] ends, and begins with
    [w], is [w]. *)
Lemma startsWith_whole_run w : forall a rest,
  allWord w -> allWord a -> isWord (hd_error rest) = false ->
  startsWith w (a ++ rest) = true ->
  isWord (hd_error (skipn (length w) (a ++ rest))) = false ->
  a = w.
Proof.
  induction w as [|x w IH]; intros a rest Hw Ha Hrest Hpre Hend.
  - destruct a as [|c a]; [reflexivity|]. simpl in Hend.
    apply allWord_cons in Ha as [Hc _]. congruence.
  - apply allWord_cons in Hw as [Hx Hw]. destruct a as [|c a].
    + destruct rest as [|b rest]; simpl in Hpre; [discriminate|].
      apply andb_true_iff in Hpre as [Hxb _].
      apply Ascii.eqb_eq in Hxb. subst b. simpl in Hrest. congruence.
    + simpl in Hpre. apply andb_true_iff in Hpre as [Hxc Hpre].
      apply Ascii.eqb_eq in Hxc. subst c.
      apply allWord_cons in Ha as [_ Ha]. f_equal.
      now apply (IH a rest).
Qed.

Section WordPattern.

(** The pattern [/\b(W)\b/g] for a non-empty literal [W = w0 :: w'] of
    word characters, replaced by [r]. *)
Variables (w0 : ascii) (w' r : jsstring).
Hypothesis w_word : allWord (w0 :: w').

Lemma re_word_nonword prev c t :
  isWordChar c = false -> re_word (w0 :: w') prev (c :: t) = None.
Proof.
  intros Hc. unfold re_word. simpl startsWith.
  destruct (Ascii.eqb_spec w0 c) as [->|_].
  - apply allWord_cons in w_word as [Hw0 _]. congruence.
  - now rewrite andb_false_r.
Qed.

Lemma re_word_inside prev c t :
  isWord prev = true -> isWordChar c = true ->
  re_word (w0 :: w') prev (c :: t) = None.
Proof.
  intros Hp Hc. unfold re_word, wordBoundary. simpl hd_error.
  simpl isWord at 2. now rewrite Hp, Hc.
Qed.

Lemma re_word_start prev a rest :
  isWord prev = false -> allWord a -> a <> [] ->
  isWord (hd_error rest) = false ->
  re_word (w0 :: w') prev (a ++ rest)
  = if jsstring_dec a (w0 :: w') then Some (length (w0 :: w')) else None.
Proof.
  intros Hp Ha Hne Hrest. unfold re_word.
  assert (Hb : wordBoundary prev (hd_error (a ++ rest)) = true).
  { destruct a as [|c a]; [now elim Hne|].
    apply allWord_cons in Ha as [Hc _].
    unfold wordBoundary. simpl. now rewrite Hp, Hc. }
  rewrite Hb, andb_true_l.
  assert (Hl : isWord (lastOr prev (w0 :: w')) = true).
  { apply isWord_lastOr; [exact w_word | left; discriminate]. }
  unfold wordBoundary at 1. rewrite Hl.
  destruct (jsstring_dec a (w0 :: w')) as [->|Hneq].
  - rewrite startsWith_app, skipn_app, skipn_all, Nat.sub_diag.
    simpl. now rewrite Hrest.
  - destruct (startsWith (w0 :: w') (a ++ rest)) eqn:Hpre; [|reflexivity].
    destruct (isWord (hd_error (skipn (length (w0 :: w')) (a ++ rest))))
      eqn:Hend; [reflexivity|].
    elim Hneq. now apply (startsWith_whole_run (w0 :: w') a rest).
Qed.

Lemma replaceFrom_inside a : forall prev rest,
  allWord a -> isWord prev = true ->
  replaceFrom (re_word (w0 :: w')) r prev 0 (a ++ rest)
  = a ++ replaceFrom (re_word (w0 :: w')) r (lastOr prev a) 0 rest.
Proof.
  induction a as [|c a IH]; intros prev rest Ha Hp; [reflexivity|].
  apply allWord_cons in Ha as [Hc Ha].
  cbn [app replaceFrom]. rewrite re_word_inside by assumption.
  rewrite IH by assumption. reflexivity.
Qed.

Lemma replaceFrom_run prev a rest :
  isWord prev = false -> allWord a -> isWord (hd_error rest) = false ->
  replaceFrom (re_word (w0 :: w')) r prev 0 (a ++ rest)
  = subst (w0 :: w') r a
    ++ replaceFrom (re_word (w0 :: w')) r (lastOr prev a) 0 rest.
Proof.
  intros Hp Ha Hrest. destruct a as [|c a1].
  - unfold subst.
    destruct (jsstring_dec [] (w0 :: w')); [discriminate|reflexivity].
  - assert (Hne : c :: a1 <> []) by discriminate.
    pose proof (re_word_start prev (c :: a1) rest Hp Ha Hne Hrest) as Hre.
    cbn [app] in Hre. cbn [app replaceFrom]. rewrite Hre.
    unfold subst. destruct (jsstring_dec (c :: a1) (w0 :: w')) as [E|E].
    + injection E as -> ->. cbn [length]. now rewrite replaceFrom_skip.
    + apply allWord_cons in Ha as [Hc Ha'].
      now rewrite replaceFrom_inside.
Qed.

Lemma replace_word_from s : forall prev,
  isWord prev = false ->
  replaceFrom (re_word (w0 :: w')) r prev 0 s
  = mapWords (subst (w0 :: w') r) [] s.
Proof.
  induction s as [a Ha | a c t Ha Hc IH] using word_run_ind; intros prev Hp.
  - rewrite <- (app_nil_r a) at 1.
    rewrite replaceFrom_run by (assumption || reflexivity).
    rewrite mapWords_allWord by assumption. simpl. now rewrite app_nil_r.
  - rewrite replaceFrom_run by (simpl; assumption).
    rewrite mapWords_run by assumption. f_equal.
    cbn [replaceFrom]. rewrite re_word_nonword by assumption.
    f_equal. apply IH. exact Hc.
Qed.

Lemma replace_word s :
  replace (re_word (w0 :: w')) r s = mapWords (subst (w0 :: w') r) [] s.
Proof. now apply replace_word_from. Qed.

End WordPattern.

Lemma replace_word_lit w r s :
  w <> [] -> allWord w ->
  replace (re_word w) r s = mapWords (subst w r) [] s.
Proof.
  intros Hne Hw. destruct w as [|w0 w']; [now elim Hne|].
  now apply replace_word.
Qed.

(** ** Abbreviations *)

Lemma subst_allWord w r a : allWord r -> allWord a -> allWord (subst w r a).
Proof. intros Hr Ha. unfold subst. now destruct (jsstring_dec a w). Qed.

Lemma four_passes_abbreviate a :
  subst (js "mountain") (js "mtn")
    (subst (js "avenue") (js "ave")
      (subst (js "street") (js "st")
        (subst (js "road") (js "rd") a)))
  = abbreviate a.
Proof.
  unfold abbreviate, abbreviations, subst, strictEq. cbn [find fst snd].
  destruct (jsstring_dec a (js "road")) as [->|Hroad];
    [vm_compute; reflexivity|].
  destruct (jsstring_dec (js "road") a) as [E|_]; [now elim Hroad|].
  destruct (jsstring_dec a (js "street")) as [->|Hstreet];
    [vm_compute; reflexivity|].
  destruct (jsstring_dec (js "street") a) as [E|_]; [now elim Hstreet|].
  destruct (jsstring_dec a (js "avenue")) as [->|Havenue];
    [vm_compute; reflexivity|].
  destruct (jsstring_dec (js "avenue") a) as [E|_]; [now elim Havenue|].
  destruct (jsstring_dec a (js "mountain")) as [->|Hmountain];
    [vm_compute; reflexivity|].
  now destruct (jsstring_dec (js "mountain") a) as [E|_]; [elim Hmountain|].
Qed.

Lemma abbreviate_cases a :
  abbreviate a = a
  \/ In (abbreviate a) [js "rd"; js "st"; js "ave"; js "mtn"].
Proof.
  rewrite <- four_passes_abbreviate. unfold subst.
  destruct (jsstring_dec a (js "road")) as [->|?];
    [right; vm_compute; tauto|].
  destruct (jsstring_dec a (js "street")) as [->|?];
    [right; vm_compute; tauto|].
  destruct (jsstring_dec a (js "avenue")) as [->|?];
    [right; vm_compute; tauto|].
  destruct (jsstring_dec a (js "mountain")) as [->|?];
    [right; vm_compute; tauto|].
  now left.
Qed.


Lemma abbreviate_nil : abbreviate [] = [].
Proof. reflexivity. Qed.

Lemma abbreviate_allWord a : allWord a -> allWord (abbreviate a).
Proof.
  intros Ha. destruct (abbreviate_cases a) as [E|Hin]; [now rewrite E|].
  simpl in Hin.
  destruct Hin as [<-|[<-|[<-|[<-|[]]]]]; reflexivity.
Qed.

Lemma abbreviate_nonempty a : a <> [] -> abbreviate a <> [].
Proof.
  intros Ha. destruct (abbreviate_cases a) as [E|Hin]; [now rewrite E|].
  simpl in Hin.
  destruct Hin as [<-|[<-|[<-|[<-|[]]]]]; discriminate.
Qed.

(** ** [normalize] is the normalization of the specification *)

Lemma normalize_spec s : normalize s = spec_normalize s.
Proof.
  unfold normalize, spec_normalize.
  rewrite replace_ws, replace_punct.
  rewrite (replace_word_lit (js "mountain")),
          (replace_word_lit (js "avenue")),
          (replace_word_lit (js "street")),
          (replace_word_lit (js "road"));
    try discriminate; try reflexivity.
  rewrite !mapWords_compose
    by (intros a Ha; repeat apply subst_allWord; trivial; reflexivity).
  do 2 f_equal. apply mapWords_ext. exact four_passes_abbreviate.
Qed.

(** ** Whitespace: [trim] and the collapse of runs *)

Lemma singleSpaced_collapseRuns s : forall inRun,
  singleSpaced inRun (collapseRuns inRun s) = true.
Proof.
  induction s as [|c t IH]; intros inRun; simpl; [reflexivity|].
  destruct (isSpace c) eqn:Hc.
  - destruct inRun; [apply IH|]. simpl. apply IH.
  - simpl. rewrite Hc. apply IH.
Qed.

Lemma collapseRuns_singleSpaced s : forall inRun,
  singleSpaced inRun s = true -> collapseRuns inRun s = s.
Proof.
  induction s as [|c t IH]; intros inRun H; simpl in *; [reflexivity|].
  destruct (isSpace c).
  - apply andb_true_iff in H as [H Ht]. apply andb_true_iff in H as [Hr Hc].
    apply Ascii.eqb_eq in Hc. subst c. destruct inRun; [discriminate|].
    now rewrite IH.
  - now rewrite IH.
Qed.

Lemma trimEnd_cons c t :
  trimEnd (c :: t)
  = match trimEnd t with
    | [] => if isSpace c then [] else [c]
    | _ :: _ => c :: trimEnd t
    end.
Proof. simpl. now destruct (trimEnd t). Qed.

Lemma trimEnd_cons_nonspace c t :
  isSpace c = false -> trimEnd (c :: t) = c :: trimEnd t.
Proof. intros Hc. rewrite trimEnd_cons, Hc. now destruct (trimEnd t). Qed.

Lemma trimEnd_app l : forall x,
  trimEnd (l ++ x)
  = match trimEnd x with
    | [] => trimEnd l
    | _ :: _ => l ++ trimEnd x
    end.
Proof.
  induction l as [|c l IH]; intros x.
  - simpl. now destruct (trimEnd x).
  - cbn [app]. rewrite !trimEnd_cons, IH.
    destruct (trimEnd x) as [|y x']; [reflexivity|].
    now destruct l.
Qed.

Lemma trimEnd_nonspace l :
  Forall (fun c => isSpace c = false) l -> trimEnd l = l.
Proof.
  induction 1 as [|c l Hc _ IH]; [reflexivity|].
  now rewrite trimEnd_cons_nonspace, IH.
Qed.

Lemma trimEnd_idem s : trimEnd (trimEnd s) = trimEnd s.
Proof.
  induction s as [|c t IH]; [reflexivity|].
  rewrite trimEnd_cons. destruct (trimEnd t) as [|y t'] eqn:Et.
  - destruct (isSpace c) eqn:Hc; simpl; now rewrite ?Hc.
  - rewrite trimEnd_cons, IH. reflexivity.
Qed.

Lemma trimStart_head s :
  match trimStart s with
  | [] => True
  | c :: _ => isSpace c = false
  end.
Proof.
  induction s as [|c t IH]; simpl; [exact I|].
  destruct (isSpace c) eqn:Hc; [exact IH | exact Hc].
Qed.

Lemma trim_idem s : trim (trim s) = trim s.
Proof.
  unfold trim. pose proof (trimStart_head s) as H.
  destruct (trimStart s) as [|c u]; [reflexivity|].
  rewrite (trimEnd_cons_nonspace c u H). simpl trimStart. rewrite H.
  rewrite <- (trimEnd_cons_nonspace c u H). apply trimEnd_idem.
Qed.

Lemma singleSpaced_trimStart s : forall inRun inRun',
  singleSpaced inRun s = true -> singleSpaced inRun' (trimStart s) = true.
Proof.
  induction s as [|c t IH]; intros inRun inRun' H; simpl in *; [reflexivity|].
  destruct (isSpace c) eqn:Hc.
  - apply andb_true_iff in H as [_ Ht]. now apply (IH true).
  - simpl. now rewrite Hc.
Qed.

Lemma singleSpaced_trimEnd s : forall inRun,
  singleSpaced inRun s = true -> singleSpaced inRun (trimEnd s) = true.
Proof.
  induction s as [|c t IH]; intros inRun H; [reflexivity|].
  rewrite trimEnd_cons. simpl in H.
  destruct (isSpace c) eqn:Hc.
  - apply andb_true_iff in H as [H Ht]. apply IH in Ht.
    destruct (trimEnd t) as [|y t']; [reflexivity|].
    simpl singleSpaced at 1. rewrite Hc. now rewrite H.
  - apply IH in H. destruct (trimEnd t) as [|y t'].
    + simpl. now rewrite Hc.
    + simpl singleSpaced at 1. now rewrite Hc.
Qed.

Lemma collapse_trim_collapse s :
  collapseRuns false (trim (collapseRuns false s))
  = trim (collapseRuns false s).
Proof.
  apply collapseRuns_singleSpaced. unfold trim.
  apply singleSpaced_trimEnd, (singleSpaced_trimStart _ false).
  apply singleSpaced_collapseRuns.
Qed.

Lemma collapseRuns_word_prefix l : forall inRun rest,
  allWord l ->
  collapseRuns inRun (l ++ rest)
  = l ++ collapseRuns (match l with [] => inRun | _ :: _ => false end) rest.
Proof.
  induction l as [|c l IH]; intros inRun rest Hl; [reflexivity|].
  apply allWord_cons in Hl as [Hc Hl]. simpl.
  rewrite (word_not_space _ Hc), IH by assumption. now destruct l.
Qed.

Lemma allWord_nonspace l :
  allWord l -> Forall (fun c => isSpace c = false) l.
Proof.
  induction l as [|c l IH]; intros Hl; constructor;
    apply allWord_cons in Hl as [Hc Hl]; auto using word_not_space.
Qed.

(** ** A word map commutes with the whitespace passes *)

Section WordMap.

Variable f : jsstring -> jsstring.
Hypothesis f_nil : f [] = [].
Hypothesis f_word : forall a, allWord a -> allWord (f a).
Hypothesis f_nonempty : forall a, a <> [] -> f a <> [].

Lemma mapWords_head s : forall cur,
  cur <> [] -> allWord cur ->
  exists d q, mapWords f cur s = d :: q /\ isWordChar d = true.
Proof.
  induction s as [|c t IH]; intros cur Hne Hcur; simpl.
  - pose proof (f_nonempty cur Hne) as Hf.
    pose proof (f_word cur Hcur) as Hw.
    destruct (f cur) as [|d q]; [now elim Hf|].
    apply allWord_cons in Hw as [Hd _]. now exists d, q.
  - destruct (isWordChar c) eqn:Hc.
    + apply IH; [now destruct cur|].
      apply allWord_app. split; [assumption|]. apply allWord_cons.
      now split.
    + pose proof (f_nonempty cur Hne) as Hf.
    pose proof (f_word cur Hcur) as Hw.
      destruct (f cur) as [|d q]; [now elim Hf|].
      apply allWord_cons in Hw as [Hd _]. simpl. now eexists _, _.
Qed.

Lemma mapWords_cons_head c t :
  isSpace c = false ->
  exists d q, mapWords f [] (c :: t) = d :: q /\ isSpace d = false.
Proof.
  intros Hs. simpl. destruct (isWordChar c) eqn:Hc.
  - destruct (mapWords_head t [c]) as (d & q & E & Hd);
      [discriminate | now apply allWord_cons |].
    exists d, q. split; [exact E | now apply word_not_space].
  - rewrite f_nil. simpl. now eexists _, _.
Qed.

Lemma mapWords_collapseRuns s : forall cur inRun,
  allWord cur -> (cur <> [] -> inRun = false) ->
  mapWords f cur (collapseRuns inRun s)
  = collapseRuns inRun (mapWords f cur s).
Proof.
  induction s as [|c t IH]; intros cur inRun Hcur Hrun.
  - simpl. rewrite <- (app_nil_r (f cur)) at 2.
    rewrite collapseRuns_word_prefix by auto. simpl. now rewrite app_nil_r.
  - cbn [collapseRuns]. destruct (isSpace c) eqn:Hs.
    + pose proof (space_not_word _ Hs) as Hc.
      rewrite (mapWords_nonword f cur c t Hc).
      rewrite collapseRuns_word_prefix by auto.
      destruct inRun.
      * destruct cur as [|x cur]; [|now discriminate Hrun].
        rewrite f_nil. simpl. rewrite Hs. now apply IH.
      * rewrite mapWords_nonword by reflexivity. f_equal.
        replace (match f cur with [] => false | _ :: _ => false end)
          with false by (now destruct (f cur)).
        simpl. rewrite Hs. f_equal. now apply IH.
    + destruct (isWordChar c) eqn:Hc.
      * cbn [mapWords]. rewrite Hc.
        assert (Hcur' : allWord (cur ++ [c])).
        { apply allWord_app. split; [assumption|].
          now apply allWord_cons. }
        rewrite IH by auto.
        destruct (mapWords_head t (cur ++ [c])) as (d & q & E & Hd);
          [now destruct cur | assumption |].
        rewrite E. simpl. rewrite (word_not_space _ Hd).
        now destruct inRun.
      * rewrite !mapWords_nonword by assumption.
        rewrite collapseRuns_word_prefix by auto. f_equal.
        simpl. rewrite Hs. f_equal. now apply IH.
Qed.

Lemma mapWords_trimStart s :
  mapWords f [] (trimStart s) = trimStart (mapWords f [] s).
Proof.
  induction s as [|c t IH]; [simpl; now rewrite f_nil|].
  cbn [trimStart]. destruct (isSpace c) eqn:Hs.
  - rewrite IH, (mapWords_nonword f [] c t (space_not_word _ Hs)), f_nil.
    simpl. now rewrite Hs.
  - destruct (mapWords_cons_head c t Hs) as (d & q & E & Hd).
    rewrite E. simpl. now rewrite Hd.
Qed.

Lemma mapWords_nonempty c t : mapWords f [] (c :: t) <> [].
Proof.
  simpl. destruct (isWordChar c) eqn:Hc.
  - destruct (mapWords_head t [c]) as (d & q & E & _);
      [discriminate | now apply allWord_cons |].
    rewrite E. discriminate.
  - rewrite f_nil. discriminate.
Qed.

Lemma mapWords_trimEnd s : forall cur,
  allWord cur ->
  mapWords f cur (trimEnd s) = trimEnd (mapWords f cur s).
Proof.
  induction s as [|c t IH]; intros cur Hcur.
  - simpl. symmetry. apply trimEnd_nonspace, allWord_nonspace. auto.
  - destruct (isSpace c) eqn:Hs.
    + pose proof (space_not_word _ Hs) as Hc.
      rewrite (mapWords_nonword f cur c t Hc), trimEnd_app.
      rewrite !trimEnd_cons, Hs, <- (IH []) by reflexivity.
      destruct (trimEnd t) as [|y t'].
      * simpl. rewrite f_nil.
        symmetry. apply trimEnd_nonspace, allWord_nonspace. auto.
      * pose proof (mapWords_nonempty y t') as Hne.
        rewrite (mapWords_nonword f cur c (y :: t') Hc).
        now destruct (mapWords f [] (y :: t')).
    + rewrite trimEnd_cons_nonspace by assumption.
      destruct (isWordChar c) eqn:Hc.
      * cbn [mapWords]. rewrite Hc. apply IH.
        apply allWord_app. split; [assumption|]. now apply allWord_cons.
      * rewrite !mapWords_nonword by assumption.
        rewrite trimEnd_app, trimEnd_cons_nonspace by assumption.
        now rewrite IH.
Qed.

Lemma mapWords_trim s : mapWords f [] (trim s) = trim (mapWords f [] s).
Proof.
  unfold trim. rewrite mapWords_trimEnd by reflexivity.
  now rewrite mapWords_trimStart.
Qed.

End WordMap.

(** ** Characters of a normalized string *)



Lemma Forall_trimStart (P : ascii -> Prop) s :
  Forall P s -> Forall P (trimStart s).
Proof.
  induction 1 as [|c t Hc Ht IH]; simpl; [constructor|].
  destruct (isSpace c); [assumption | now constructor].
Qed.

Lemma Forall_trimEnd (P : ascii -> Prop) s :
  Forall P s -> Forall P (trimEnd s).
Proof.
  induction 1 as [|c t Hc Ht IH]; [constructor|].
  rewrite trimEnd_cons. destruct (trimEnd t).
  - destruct (isSpace c); repeat constructor; assumption.
  - now constructor.
Qed.








(** ** The 8-bit strings among the UTF-16 strings *)



























(** ** Word sets *)

Lemma fold_set_add_In x l : forall acc,
  In x (fold_left (fun s y => set_add jsstring_dec y s) l acc)
  <-> In x acc \/ In x l.
Proof.
  induction l as [|y l IH]; intros acc; simpl; [tauto|].
  rewrite IH, set_add_iff. intuition congruence.
Qed.

Lemma fold_set_add_NoDup l : forall acc,
  NoDup acc -> NoDup (fold_left (fun s y => set_add jsstring_dec y s) l acc).
Proof.
  induction l as [|y l IH]; intros acc Hacc; simpl; [assumption|].
  apply IH. now apply set_add_nodup.
Qed.

Lemma newSet_In x l : In x (newSet l) <-> In x l.
Proof. unfold newSet. rewrite fold_set_add_In. simpl. tauto. Qed.

Lemma newSet_NoDup l : NoDup (newSet l).
Proof. apply fold_set_add_NoDup. constructor. Qed.

Lemma has_true s x : has s x = true <-> In x s.
Proof.
  unfold has. split.
  - apply set_mem_correct1.
  - apply set_mem_correct2.
Qed.

Lemma same_elements_length (a b : list jsstring) :
  NoDup a -> NoDup b -> (forall x, In x a <-> In x b) -> length a = length b.
Proof.
  intros Ha Hb Hab. apply Permutation_length. now apply NoDup_Permutation.
Qed.

Lemma size_newSet l : size (newSet l) = length (nodup jsstring_dec l).
Proof.
  apply same_elements_length;
    [apply newSet_NoDup | apply NoDup_nodup |].
  intros x. now rewrite newSet_In, nodup_In.
Qed.

Lemma common_newSet a b :
  common (newSet a) (newSet b)
  = length (set_inter jsstring_dec (nodup jsstring_dec a)
                      (nodup jsstring_dec b)).
Proof.
  unfold common. apply same_elements_length.
  - apply NoDup_filter, newSet_NoDup.
  - apply set_inter_nodup; apply NoDup_nodup.
  - intros x. rewrite filter_In, has_true, set_inter_iff.
    now rewrite !newSet_In, !nodup_In.
Qed.

Lemma split_nonempty sep s : split sep s <> [].
Proof.
  induction s as [|c t IH]; simpl; [discriminate|].
  destruct (Ascii.eqb c sep); [discriminate|].
  destruct (split sep t); [now elim IH | discriminate].
Qed.

Lemma size_wordSetOf_pos norm : 1 <= size (wordSetOf norm).
Proof.
  unfold wordSetOf. pose proof (split_nonempty " "%char norm) as Hne.
  destruct (split " "%char norm) as [|x l] eqn:E; [now elim Hne|].
  assert (Hin : In x (newSet (x :: l))) by (apply newSet_In; now left).
  unfold size. destruct (newSet (x :: l)); [now elim Hin | simpl; lia].
Qed.

(** The divisor of [similarity] is never zero. *)
Lemma total_pos normInput normResult :
  1 <= total (wordSetOf normInput) (wordSetOf normResult).
Proof.
  unfold total. pose proof (size_wordSetOf_pos normInput). lia.
Qed.

Lemma similarity_spec a b : similarity a b = spec_similarity a b.
Proof.
  unfold similarity, spec_similarity, wordSetOf, spec_words, total.
  now rewrite common_newSet, !size_newSet.
Qed.

Lemma gt_true x y : gt x y = true <-> (y < x)%Q.
Proof.
  unfold gt. rewrite negb_true_iff, <- not_true_iff_false, Qle_bool_iff.
  split; [apply Qnot_le_lt | apply Qlt_not_le].
Qed.

(** C2.  [compareAddresses] is the comparison of the specification: both
    strings are normalized alike (lowercase; periods and commas stripped;
    the words road, street, avenue, mountain abbreviated as whole words;
    whitespace runs collapsed; trimmed); equal normalized strings are
    validated, and otherwise the verdict is validated exactly when the
    overlap of the two word sets, divided by the larger set size, is
    strictly above 0.6. *)
Theorem compareAddresses_spec input result :
  compareAddresses input result = spec_compare input result.
Proof.
  unfold compareAddresses, spec_compare, strictEq.
  rewrite !normalize_spec, similarity_spec.
  destruct (jsstring_dec (spec_normalize input) (spec_normalize result));
    [reflexivity|].
  destruct (Qlt_le_dec 0.6
              (spec_similarity (spec_normalize input) (spec_normalize result)))
    as [Hlt|Hle].
  - apply gt_true in Hlt. now rewrite Hlt.
  - destruct (gt _ _) eqn:Hgt; [|reflexivity].
    apply gt_true in Hgt. now apply Qlt_not_le in Hgt.
Qed.

(** ** The classifier *)

Lemma isCountryOnlyResult_ok r : isCountryOnlyResult r = Ok (countryOnly r).
Proof.
  unfold isCountryOnlyResult, countryOnly.
  now destruct (partial_match r).
Qed.

Lemma filterM_ok {A : Type} (p : A -> Result bool) (q : A -> bool) xs :
  (forall x, p x = Ok (q x)) -> filterM p xs = Ok (filter q xs).
Proof.
  intros Hp. induction xs as [|x t IH]; simpl; [reflexivity|].
  now rewrite Hp, IH.
Qed.

Lemma nonCountry_filterM results :
  filterM (fun r => b <- isCountryOnlyResult r ;; Ok (negb b)) results
  = Ok (nonCountryResults results).
Proof.
  apply filterM_ok. intros r. now rewrite isCountryOnlyResult_ok.
Qed.

Lemma find_filter {A : Type} (p : A -> bool) l :
  find p l = hd_error (filter p l).
Proof.
  induction l as [|x t IH]; simpl; [reflexivity|]. now destruct (p x).
Qed.

Lemma length_eqb_nil {A : Type} (l : list A) :
  (length l =? 0) = match l with [] => true | _ :: _ => false end.
Proof. now destruct l. Qed.

Lemma exact_not_countryOnly r : isExactMatch r = true -> countryOnly r = false.
Proof.
  unfold isExactMatch, countryOnly. now destruct (partial_match r).
Qed.

Lemma exact_nonCountry results :
  filter isExactMatch (nonCountryResults results) = filter isExactMatch results.
Proof.
  unfold nonCountryResults. induction results as [|r t IH]; [reflexivity|].
  simpl. destruct (isExactMatch r) eqn:He.
  - rewrite (exact_not_countryOnly r He). simpl. now rewrite He, IH.
  - destruct (countryOnly r); simpl; now rewrite ?He, IH.
Qed.

(** The classifier, case by case. *)
Lemma classify_cases results input :
  classifyGeocodeResults results input
  = match results with
    | [] => Ok (UNVERIFIABLE (js "No address found."))
    | _ :: _ =>
        match nonCountryResults results with
        | [] => Ok (UNVERIFIABLE (js "No precise US match found."))
        | _ :: _ =>
            match find isExactMatch (nonCountryResults results) with
            | Some best =>
                components <-
                  extractAddressComponents (address_components best) ;;
                match compareAddresses input (formatted_address best) with
                | validated =>
                    Ok (VALIDATED (formatted_address best) components)
                | corrected => Ok (CORRECTED [formatted_address best])
                end
            | None =>
                match filter isPossibleMatch (nonCountryResults results) with
                | [] => Ok (UNVERIFIABLE (js "No precise US match found."))
                | possible => Ok (CORRECTED (map formatted_address possible))
                end
            end
        end
    end.
Proof.
  unfold classifyGeocodeResults.
  rewrite length_eqb_nil, nonCountry_filterM. cbn [bind].
  destruct results as [|r0 t]; [reflexivity|].
  rewrite length_eqb_nil, find_filter.
  destruct (nonCountryResults (r0 :: t)) as [|n ns]; [reflexivity|].
  destruct (filter isExactMatch (n :: ns)) as [|best rest]; [|reflexivity].
  cbn [hd_error]. now destruct (filter isPossibleMatch (n :: ns)).
Qed.

(** The scenarios of the specification that the source follows. *)

Example normalize_amphitheatre :
  normalize (js "1600 Amphitheatre Pkwy, Mountain View, CA 94043, USA")
  = js "1600 amphitheatre pkwy mtn view ca 94043 usa".
Proof. vm_compute. reflexivity. Qed.

Example normalize_whole_words_only :
  normalize (js "  Broadway  Road, roadhouse STREET.")
  = js "broadway rd roadhouse st".
Proof. vm_compute. reflexivity. Qed.

Example scenario_exact :
  classifyGeocodeResults [googleplex]
    (js "1600 amphitheatre pkwy mountain view ca")
  = Ok (VALIDATED (js "1600 Amphitheatre Pkwy, Mountain View, CA 94043, USA")
          {| street_number := Some (js "1600");
             street_name := Some (js "Amphitheatre Pkwy");
             city := Some (js "Mountain View");
             state := Some (js "CA");
             zipCode := Some (js "94043") |}).
Proof. vm_compute. reflexivity. Qed.

Example scenario_no_candidate input :
  classifyGeocodeResults [] input = Ok (UNVERIFIABLE (js "No address found.")).
Proof. reflexivity. Qed.

Example scenario_two_partial_matches :
  classifyGeocodeResults [springfield "IL"; springfield "MO"]
    (js "123 Main St Springfield")
  = Ok (CORRECTED [js "123 Main St, Springfield, IL";
                   js "123 Main St, Springfield, MO"]).
Proof. vm_compute. reflexivity. Qed.

Example scenario_low_similarity :
  classifyGeocodeResults [oakAvenue] (js "Main Street")
  = Ok (CORRECTED [js "456 Oak Avenue, Other City, NY"]).
Proof. vm_compute. reflexivity. Qed.

Lemma not_truthy v : negb (truthy v) = true <-> absentOrEmpty v.
Proof.
  unfold absentOrEmpty. destruct v as [[|c s]|]; simpl;
    intuition discriminate.
Qed.

Lemma lacksDetail_true c :
  lacksDetail c = true
  <-> absentOrEmpty (street_number c) /\ absentOrEmpty (street_name c)
      /\ absentOrEmpty (city c) /\ absentOrEmpty (zipCode c).
Proof.
  unfold lacksDetail. rewrite !andb_true_iff, !not_truthy. tauto.
Qed.

Lemma countryOnly_true r : countryOnly r = true <-> countryOnlyFallback r.
Proof.
  unfold countryOnly, countryOnlyFallback.
  now rewrite andb_true_iff, orb_true_iff, lacksDetail_true.
Qed.

Lemma all_countryOnly_unverifiable results input :
  results <> [] ->
  (forall r, In r results -> countryOnly r = true) ->
  classifyGeocodeResults results input
  = Ok (UNVERIFIABLE (js "No precise US match found.")).
Proof.
  intros Hne Hall. rewrite classify_cases.
  destruct results as [|r0 t] eqn:E; [now elim Hne|]. rewrite <- E in *.
  replace (nonCountryResults results) with (@nil GeocodeResult);
    [reflexivity|].
  symmetry. unfold nonCountryResults.
  clear E Hne. induction results as [|r l IH]; [reflexivity|].
  simpl. rewrite (Hall r) by now left. simpl.
  apply IH. intros x Hx. apply Hall. now right.
Qed.

(** The first exact candidate decides, once its components are read. *)
Lemma classify_with_first_exact results input best comps :
  find isExactMatch (nonCountryResults results) = Some best ->
  address_components best = Some comps ->
  classifyGeocodeResults results input
  = Ok (match compareAddresses input (formatted_address best) with
        | validated => VALIDATED (formatted_address best) (extracted comps)
        | corrected => CORRECTED [formatted_address best]
        end).
Proof.
  intros Hbest Hcomps. rewrite classify_cases.
  destruct results as [|r0 t] eqn:E; [discriminate Hbest|]. rewrite <- E in *.
  destruct (nonCountryResults results) as [|n ns]; [discriminate Hbest|].
  rewrite Hbest, Hcomps. cbn [extractAddressComponents bind].
  now destruct (compareAddresses input (formatted_address best)).
Qed.

(** C1.  The claim fails where the first candidate that is not a partial
    match and has location type ROOFTOP carries no [address_components]:
    in the list below that candidate is the second one, the comparator
    validates the input against its formatted address, and the classifier
    throws at the extraction of its components instead of returning
    Exact.  With the components present the claim holds
    ([classify_with_first_exact]). *)
Theorem first_exact_without_components_throws :
  find isExactMatch
    (nonCountryResults [springfield "IL"; rooftopWithoutComponents; mainStreet])
  = Some rooftopWithoutComponents
  /\ compareAddresses (js "1 Main St")
       (formatted_address rooftopWithoutComponents) = validated
  /\ classifyGeocodeResults
       [springfield "IL"; rooftopWithoutComponents; mainStreet]
       (js "1 Main St")
     = Throw TypeError.
Proof.
  split; [reflexivity|]. split; [vm_compute; reflexivity|].
  rewrite classify_cases. reflexivity.
Qed.

(** C3, as the source has it.  A candidate is discarded as a country-only
    fallback exactly when it is a partial match and either is typed
    "country" or has street number, street name, city and postal code all
    absent or empty; the test never throws.  A non-empty list whose
    candidates are all discarded, in particular one whose candidates are all
    partial matches typed "country", is Unverifiable with the message
    "No precise US match found.". *)
Theorem country_only_filter results input :
  (forall r, (exists b, isCountryOnlyResult r = Ok b)
             /\ (isCountryOnlyResult r = Ok true <-> countryOnlyFallback r))
  /\ (results <> [] ->
      (forall r, In r results -> isCountryOnlyResult r = Ok true) ->
      classifyGeocodeResults results input
      = Ok (UNVERIFIABLE (js "No precise US match found.")))
  /\ (results <> [] ->
      (forall r, In r results ->
                 partial_match r = true /\ hasCountryType r = true) ->
      classifyGeocodeResults results input
      = Ok (UNVERIFIABLE (js "No precise US match found."))).
Proof.
  split; [|split].
  - intros r. rewrite isCountryOnlyResult_ok. split; [now eexists|].
    rewrite <- countryOnly_true. split; congruence.
  - intros Hne Hall. apply all_countryOnly_unverifiable; [assumption|].
    intros r Hr. specialize (Hall r Hr).
    rewrite isCountryOnlyResult_ok in Hall. congruence.
  - intros Hne Hall. apply all_countryOnly_unverifiable; [assumption|].
    intros r Hr. destruct (Hall r Hr) as [Hp Hc].
    unfold countryOnly. now rewrite Hp, Hc.
Qed.

Lemma country_only_filter_witness :
  isCountryOnlyResult emptyRoute = Ok true
  /\ classifyGeocodeResults [emptyRoute; emptyRoute] (js "zzz")
     = Ok (UNVERIFIABLE (js "No precise US match found.")).
Proof.
  destruct (country_only_filter [emptyRoute; emptyRoute] (js "zzz"))
    as (_ & Hall & _).
  split; [reflexivity|]. apply Hall; [discriminate|].
  intros r [<-|[<-|[]]]; reflexivity.
Defined.

(** C3 as worded fails: [emptyRoute] has a street name, the empty string,
    so it is not a country-only fallback in the words of the
    specification, and the source discards it. *)
Lemma empty_field_counts_as_missing :
  isCountryOnlyResult emptyRoute = Ok true /\ ~ spec_countryOnly emptyRoute.
Proof.
  split; [reflexivity|].
  intros (_ & [Hc | (_ & Hname & _)]); discriminate.
Qed.

(** C4, as the source has it.  When the first candidate that is not a
    partial match and has location type ROOFTOP carries its components and
    has a formatted address that normalizes to the same string as the
    input, the outcome is Exact, with that candidate's formatted address
    and extracted components. *)
Theorem classify_exact_when_first_normalizes results input best comps :
  find isExactMatch (nonCountryResults results) = Some best ->
  address_components best = Some comps ->
  normalize (formatted_address best) = normalize input ->
  classifyGeocodeResults results input
  = Ok (VALIDATED (formatted_address best) (extracted comps)).
Proof.
  intros Hbest Hcomps Hnorm.
  rewrite (classify_with_first_exact results input best comps Hbest Hcomps).
  unfold compareAddresses. now rewrite Hnorm, strictEq_refl.
Qed.

Lemma classify_exact_when_first_normalizes_witness :
  find isExactMatch (nonCountryResults [mainStreet; oakAvenue])
  = Some mainStreet
  /\ address_components mainStreet = Some []
  /\ normalize (formatted_address mainStreet) = normalize (js "main st.")
  /\ classifyGeocodeResults [mainStreet; oakAvenue] (js "main st.")
     = Ok (VALIDATED (js "Main Street") (extracted [])).
Proof.
  split; [reflexivity|]. split; [reflexivity|].
  split; [vm_compute; reflexivity|].
  apply (classify_exact_when_first_normalizes [mainStreet; oakAvenue]
           (js "main st.") mainStreet []);
    [reflexivity | reflexivity | vm_compute; reflexivity].
Defined.

(** C4 as worded fails: the second candidate of [oakAvenue; mainStreet]
    is ROOFTOP, not partial, and normalizes like the input "Main Street",
    yet the outcome is Corrected, decided by the first candidate. *)
Lemma exact_property_fails_on_second_candidate :
  ~ spec_exact_property [oakAvenue; mainStreet] (js "Main Street").
Proof.
  intros H. destruct H as (formatted & components & Hc).
  - exists mainStreet. split; [now right; left|].
    split; [reflexivity|]. split; [reflexivity|]. vm_compute. reflexivity.
  - vm_compute in Hc. discriminate Hc.
Qed.

(** C5, as the source has it.  For the input "123 Mian St" and one
    candidate with formatted address "123 Main St, Anytown, CA 90210, USA",
    location type ROOFTOP, not a partial match, that carries address
    components (whatever they and its types are), the two word sets share
    2 words, the larger has 7, the
    similarity 2/7 is not above 0.6, and the outcome is Corrected with the
    candidate's formatted address as the only alternative. *)
Theorem typo_scenario_is_corrected ts comps :
  let candidate :=
    {| partial_match := false;
       geometry := geometryOf "ROOFTOP";
       types := ts;
       address_components := Some comps;
       formatted_address := js "123 Main St, Anytown, CA 90210, USA" |} in
  similarity (normalize (js "123 Mian St"))
             (normalize (formatted_address candidate)) = (2 # 7)%Q
  /\ gt (2 # 7)%Q 0.6%Q = false
  /\ classifyGeocodeResults [candidate] (js "123 Mian St")
     = Ok (CORRECTED [js "123 Main St, Anytown, CA 90210, USA"]).
Proof.
  intros candidate. split; [vm_compute; reflexivity|].
  split; [reflexivity|].
  rewrite (classify_with_first_exact [candidate] (js "123 Mian St") candidate
             comps eq_refl eq_refl).
  replace (compareAddresses (js "123 Mian St") (formatted_address candidate))
    with corrected by (vm_compute; reflexivity).
  reflexivity.
Qed.

(** C5 as worded fails: in the scenario the similarity is not above 0.6
    and the outcome is not Exact. *)
Lemma typo_scenario_not_exact :
  ~ (gt (similarity (normalize (js "123 Mian St"))
                    (normalize (formatted_address mainStAnytown))) 0.6%Q = true
     /\ exists components,
          classifyGeocodeResults [mainStAnytown] (js "123 Mian St")
          = Ok (VALIDATED (formatted_address mainStAnytown) components)).
Proof.
  intros [Hgt _]. vm_compute in Hgt. discriminate Hgt.
Qed.

(** C6.  The classifier throws on a ROOFTOP, non-partial result that has
    no [address_components]: the components are extracted without the
    [|| []] that [isCountryOnlyResult] applies. *)
Theorem classify_throws_without_components :
  classifyGeocodeResults [rooftopWithoutComponents] (js "1 Main St")
  = Throw TypeError.
Proof. reflexivity. Qed.

(** The country-only test reads the same field through [|| []] and
    does not throw. *)
Example country_only_guards_missing_components :
  isCountryOnlyResult partialWithoutComponents = Ok true.
Proof. reflexivity. Qed.

(** With the components of every candidate present, the classifier
    returns an outcome. *)
Lemma classify_total_with_components results input :
  (forall r, In r results -> address_components r <> None) ->
  exists outcome, classifyGeocodeResults results input = Ok outcome.
Proof.
  intros Hall. rewrite classify_cases.
  destruct results as [|r0 t] eqn:E; [now eexists|]. rewrite <- E in *.
  destruct (nonCountryResults results) as [|n ns] eqn:En; [now eexists|].
  rewrite <- En.
  destruct (find isExactMatch (nonCountryResults results)) as [best|] eqn:Hf.
  - apply find_some in Hf as [Hin _].
    apply filter_In in Hin as [Hin _].
    destruct (address_components best) as [comps|] eqn:Hc;
      [|now elim (Hall best Hin)].
    cbn [extractAddressComponents bind].
    destruct (compareAddresses input (formatted_address best)); now eexists.
  - destruct (filter isPossibleMatch (nonCountryResults results)); now eexists.
Qed.

(** C7.  Whenever the outcome is Corrected, its list of alternatives is
    not empty. *)
Theorem corrected_alternatives_nonempty results input alternatives :
  classifyGeocodeResults results input = Ok (CORRECTED alternatives) ->
  alternatives <> [].
Proof.
  rewrite classify_cases.
  destruct results as [|r0 t] eqn:E; [discriminate|]. rewrite <- E.
  destruct (nonCountryResults results) as [|n ns] eqn:En; [discriminate|].
  rewrite <- En.
  destruct (find isExactMatch (nonCountryResults results)) as [best|].
  - destruct (extractAddressComponents (address_components best));
      [|discriminate].
    cbn [bind].
    destruct (compareAddresses input (formatted_address best));
      [discriminate|].
    intros [= <-]. discriminate.
  - destruct (filter isPossibleMatch (nonCountryResults results));
      [discriminate|].
    intros [= <-]. discriminate.
Qed.

Lemma corrected_alternatives_nonempty_witness :
  classifyGeocodeResults [springfield "IL"; springfield "MO"]
    (js "123 Main St Springfield")
  = Ok (CORRECTED [js "123 Main St, Springfield, IL";
                   js "123 Main St, Springfield, MO"])
  /\ [js "123 Main St, Springfield, IL"; js "123 Main St, Springfield, MO"]
     <> [].
Proof.
  split; [reflexivity|].
  apply (corrected_alternatives_nonempty [springfield "IL"; springfield "MO"]
           (js "123 Main St Springfield")).
  reflexivity.
Defined.

(** C9.  Every formatted address of an outcome is the formatted address
    of a candidate of the input list: the address of an Exact outcome, and
    each alternative of a Corrected outcome.  When no candidate is both
    ROOFTOP and not partial, the alternatives are the formatted addresses
    of the candidates that survive the country-only filter and pass the
    possible-match filter, in the order of the input. *)
Theorem classify_provenance results input outcome :
  classifyGeocodeResults results input = Ok outcome ->
  match outcome with
  | VALIDATED formatted _ => In formatted (map formatted_address results)
  | CORRECTED alternatives =>
      incl alternatives (map formatted_address results)
      /\ (find isExactMatch (nonCountryResults results) = None ->
          alternatives
          = map formatted_address
              (filter isPossibleMatch (nonCountryResults results)))
  | UNVERIFIABLE _ => True
  end.
Proof.
  rewrite classify_cases.
  destruct results as [|r0 t] eqn:E; [now intros [= <-]|]. rewrite <- E.
  destruct (nonCountryResults results) as [|n ns] eqn:En; [now intros [= <-]|].
  rewrite <- En.
  destruct (find isExactMatch (nonCountryResults results)) as [best|] eqn:Hf.
  - apply find_some in Hf as [Hin _]. apply filter_In in Hin as [Hin _].
    apply (in_map formatted_address) in Hin.
    destruct (extractAddressComponents (address_components best));
      [|discriminate].
    cbn [bind].
    destruct (compareAddresses input (formatted_address best));
      intros [= <-]; [exact Hin|].
    split; [|discriminate]. intros x [<-|[]]. exact Hin.
  - assert (Hincl :
      incl (map formatted_address
              (filter isPossibleMatch (nonCountryResults results)))
           (map formatted_address results)).
    { intros x Hx. apply in_map_iff in Hx as (r & <- & Hr).
      apply filter_In in Hr as [Hr _]. apply filter_In in Hr as [Hr _].
      now apply in_map. }
    destruct (filter isPossibleMatch (nonCountryResults results))
      as [|p ps]; intros [= <-]; [exact I|].
    split; [exact Hincl | reflexivity].
Qed.

Lemma classify_provenance_witness :
  classifyGeocodeResults [emptyRoute; springfield "IL"; springfield "MO"]
    (js "123 Main St Springfield")
  = Ok (CORRECTED [js "123 Main St, Springfield, IL";
                   js "123 Main St, Springfield, MO"])
  /\ incl [js "123 Main St, Springfield, IL"; js "123 Main St, Springfield, MO"]
       (map formatted_address
          [emptyRoute; springfield "IL"; springfield "MO"]).
Proof.
  split; [reflexivity|].
  apply (classify_provenance [emptyRoute; springfield "IL"; springfield "MO"]
           (js "123 Main St Springfield")
           (CORRECTED [js "123 Main St, Springfield, IL";
                       js "123 Main St, Springfield, MO"])).
  reflexivity.
Defined.

(** C10.  A candidate that is not a partial match is never discarded by
    the country-only filter, whatever its types and components; when it is
    the only candidate and its location type is APPROXIMATE, the outcome is
    Corrected with its formatted address as the only alternative. *)
Theorem nonpartial_never_country_only r input :
  partial_match r = false ->
  isCountryOnlyResult r = Ok false
  /\ (locationType r = Some (js "APPROXIMATE") ->
      classifyGeocodeResults [r] input = Ok (CORRECTED [formatted_address r])).
Proof.
  intros Hp. split.
  - unfold isCountryOnlyResult. now rewrite Hp.
  - intros Hl. rewrite classify_cases.
    unfold nonCountryResults, countryOnly. cbn [filter]. rewrite Hp.
    cbn [andb negb find filter]. unfold isExactMatch, isPossibleMatch.
    rewrite Hp, Hl. reflexivity.
Qed.

Lemma nonpartial_never_country_only_witness :
  partial_match unitedStates = false
  /\ hasCountryType unitedStates = true
  /\ lacksDetail (extracted (componentsOrEmpty unitedStates)) = true
  /\ isCountryOnlyResult unitedStates = Ok false
  /\ classifyGeocodeResults [unitedStates] (js "usa")
     = Ok (CORRECTED [js "United States"]).
Proof.
  destruct (nonpartial_never_country_only unitedStates (js "usa") eq_refl)
    as [Hfilter Hclass].
  repeat split; try reflexivity; try exact Hfilter.
Defined.

(** * Further properties of the code *)

(** ** The comparator *)

Lemma strictEq_sym a b : strictEq a b = strictEq b a.
Proof.
  unfold strictEq.
  destruct (jsstring_dec a b), (jsstring_dec b a); congruence.
Qed.

Lemma common_sym (a b : list jsstring) :
  common (newSet a) (newSet b) = common (newSet b) (newSet a).
Proof.
  unfold common. apply same_elements_length;
    try (apply NoDup_filter, newSet_NoDup).
  intros x. rewrite !filter_In, !has_true. tauto.
Qed.

Lemma similarity_sym a b : similarity a b = similarity b a.
Proof.
  unfold similarity, wordSetOf, total.
  now rewrite common_sym, Nat.max_comm.
Qed.

(** X1.  The verdict of the comparator does not depend on the order of
    its two arguments. *)
Theorem compareAddresses_sym input result :
  compareAddresses input result = compareAddresses result input.
Proof.
  unfold compareAddresses.
  now rewrite strictEq_sym, similarity_sym.
Qed.

Lemma isPunct_toLower1 c : isPunct (toLower1 c) = isPunct c.
Proof. by_cases_on_char c. Qed.

Lemma normalize_toLowerCase s : normalize (toLowerCase s) = normalize s.
Proof.
  unfold normalize, toLowerCase. rewrite map_map.
  do 7 f_equal. apply map_ext. exact toLower1_idem.
Qed.

Lemma stripPunctuation_toLowerCase s :
  stripPunctuation (toLowerCase s) = toLowerCase (stripPunctuation s).
Proof.
  unfold stripPunctuation, toLowerCase.
  induction s as [|c t IH]; [reflexivity|]. simpl.
  rewrite isPunct_toLower1. destruct (isPunct c); simpl; now rewrite IH.
Qed.

Lemma stripPunctuation_idem s :
  stripPunctuation (stripPunctuation s) = stripPunctuation s.
Proof.
  unfold stripPunctuation. induction s as [|c t IH]; [reflexivity|].
  simpl. destruct (isPunct c) eqn:Hc; simpl; now rewrite ?Hc, IH.
Qed.

Lemma normalize_without_punctuation s :
  normalize (replace re_punct (js "") s) = normalize s.
Proof.
  unfold normalize. rewrite !replace_punct.
  rewrite (stripPunctuation_toLowerCase (stripPunctuation s)).
  rewrite stripPunctuation_idem.
  now rewrite <- stripPunctuation_toLowerCase.
Qed.

(** X2.  The comparator ignores letter case, periods and commas: lowering
    the case of an argument, or deleting its periods and commas, does not
    change the verdict. *)
Theorem compareAddresses_ignores_case_and_punctuation input result :
  compareAddresses (toLowerCase input) result = compareAddresses input result
  /\ compareAddresses (replace re_punct (js "") input) result
     = compareAddresses input result
  /\ compareAddresses input (toLowerCase result)
     = compareAddresses input result
  /\ compareAddresses input (replace re_punct (js "") result)
     = compareAddresses input result.
Proof.
  unfold compareAddresses.
  now rewrite !normalize_toLowerCase, !normalize_without_punctuation.
Qed.

Lemma common_le_size a b : common a b <= size a.
Proof. unfold common, size. apply filter_length_le. Qed.

(** X3.  The similarity of two normalized strings lies between 0 and 1. *)
Theorem similarity_bounds normInput normResult :
  (0 <= similarity normInput normResult)%Q
  /\ (similarity normInput normResult <= 1)%Q.
Proof.
  unfold similarity.
  set (a := wordSetOf normInput). set (b := wordSetOf normResult).
  pose proof (total_pos normInput normResult) as Ht. fold a b in Ht.
  pose proof (common_le_size a b) as Hc.
  assert (Hct : common a b <= total a b) by (unfold total; lia).
  assert (Hpos : (0 < inject_Z (Z.of_nat (total a b)))%Q).
  { change 0%Q with (inject_Z 0). rewrite <- Zlt_Qlt. lia. }
  split.
  - apply Qle_shift_div_l; [exact Hpos|]. rewrite Qmult_0_l.
    change 0%Q with (inject_Z 0). rewrite <- Zle_Qle. lia.
  - apply Qle_shift_div_r; [exact Hpos|]. rewrite Qmult_1_l.
    rewrite <- Zle_Qle. lia.
Qed.

(** X4.  Two addresses whose normalized strings differ and share no word
    are never validated. *)
Theorem no_common_word_is_corrected input result :
  normalize input <> normalize result ->
  (forall w, In w (split " "%char (normalize input)) ->
             ~ In w (split " "%char (normalize result))) ->
  compareAddresses input result = corrected.
Proof.
  intros Hne Hdisjoint. unfold compareAddresses, strictEq.
  destruct (jsstring_dec (normalize input) (normalize result));
    [contradiction|].
  assert (Hc : common (wordSetOf (normalize input))
                      (wordSetOf (normalize result)) = 0).
  { unfold common, wordSetOf.
    destruct (filter _ _) as [|w ws] eqn:E; [reflexivity|].
    assert (Hin : In w (w :: ws)) by now left.
    rewrite <- E in Hin. apply filter_In in Hin as [Hi Hr].
    apply has_true in Hr. rewrite newSet_In in Hi, Hr.
    exfalso. exact (Hdisjoint w Hi Hr). }
  replace (gt _ _) with false; [reflexivity|].
  symmetry. unfold gt. apply negb_false_iff, Qle_bool_iff.
  unfold similarity. rewrite Hc. simpl Z.of_nat.
  unfold Qdiv. rewrite Qmult_0_l. discriminate.
Qed.

Lemma no_common_word_is_corrected_witness :
  normalize (js "Main Street")
  <> normalize (js "456 Oak Avenue, Other City, NY")
  /\ compareAddresses (js "Main Street") (js "456 Oak Avenue, Other City, NY")
     = corrected.
Proof.
  assert (Hne : normalize (js "Main Street")
                <> normalize (js "456 Oak Avenue, Other City, NY"))
    by (vm_compute; discriminate).
  split; [exact Hne|].
  apply (no_common_word_is_corrected (js "Main Street")
           (js "456 Oak Avenue, Other City, NY") Hne).
  vm_compute. intros w Hw Hr.
  repeat (destruct Hw as [<-|Hw];
          [repeat (destruct Hr as [Hr|Hr]; [discriminate Hr|]); exact Hr|]).
  exact Hw.
Defined.

(** ** Component extraction *)

Lemma get_None cs type useShort :
  get cs type useShort = None <-> forall c, In c cs -> ~ tagged type c.
Proof.
  unfold get, tagged.
  destruct (find _ cs) as [comp|] eqn:Hf; split; try discriminate.
  - intros Hall. apply find_some in Hf as [Hin Ht]. now elim (Hall comp Hin).
  - intros _ c Hc. rewrite (find_none _ _ Hf c Hc). discriminate.
  - reflexivity.
Qed.

Lemma get_firstTagged cs type useShort c :
  firstTagged type cs c ->
  get cs type useShort = Some (if useShort then short_name c else long_name c).
Proof.
  intros (before & after & -> & Hbefore & Hc). unfold get, tagged in *.
  induction before as [|x before IH]; simpl.
  - now rewrite Hc.
  - destruct (includes (component_types x) type) eqn:Hx.
    + elim (Hbefore x); [now left | exact Hx].
    + apply IH. intros y Hy. apply Hbefore. now right.
Qed.


(** X6.  Each extracted field comes from the first component that
    carries its tag: the street number, street name and postal code are
    the long name of that component, the state is its short name. *)
Theorem extracted_field_first_tagged cs c :
  (firstTagged (js "street_number") cs c ->
   street_number (extracted cs) = Some (long_name c))
  /\ (firstTagged (js "route") cs c ->
      street_name (extracted cs) = Some (long_name c))
  /\ (firstTagged (js "administrative_area_level_1") cs c ->
      state (extracted cs) = Some (short_name c))
  /\ (firstTagged (js "postal_code") cs c ->
      zipCode (extracted cs) = Some (long_name c)).
Proof.
  unfold extracted. simpl.
  repeat split; intros H; now rewrite (get_firstTagged _ _ _ _ H).
Qed.

Lemma extracted_field_first_tagged_witness :
  firstTagged (js "administrative_area_level_1") twoStates california
  /\ state (extracted twoStates) = Some (js "CA").
Proof.
  assert (H : firstTagged (js "administrative_area_level_1") twoStates
                california).
  { exists [componentOf "Mountain View" "locality"],
      [{| long_name := js "Texas"; short_name := js "TX";
          component_types := [js "administrative_area_level_1"] |}].
    split; [reflexivity|]. split; [|reflexivity].
    intros x [<-|[]]. unfold tagged. vm_compute. discriminate. }
  split; [exact H|].
  destruct (extracted_field_first_tagged twoStates california)
    as (_ & _ & Hstate & _).
  exact (Hstate H).
Defined.

(** X7.  The city is the name of the first locality component when that
    name is not empty; without a locality component, or when that name is
    empty, it is the name of the first postal-town component, if any. *)
Theorem extracted_city cs :
  (forall c, firstTagged (js "locality") cs c -> long_name c <> [] ->
             city (extracted cs) = Some (long_name c))
  /\ (forall c, firstTagged (js "locality") cs c -> long_name c = [] ->
                city (extracted cs) = get cs (js "postal_town") false)
  /\ ((forall c, In c cs -> ~ tagged (js "locality") c) ->
      city (extracted cs) = get cs (js "postal_town") false).
Proof.
  unfold extracted. cbn [city]. unfold orElse. repeat split.
  - intros c Hc Hne. rewrite (get_firstTagged _ _ false _ Hc).
    destruct (long_name c); [now elim Hne | reflexivity].
  - intros c Hc He. rewrite (get_firstTagged _ _ false _ Hc). now rewrite He.
  - intros Hnone. apply (get_None cs (js "locality") false) in Hnone.
    now rewrite Hnone.
Qed.

Lemma extracted_city_witness :
  (forall c, In c [componentOf "10" "street_number";
                   componentOf "London" "postal_town"] ->
             ~ tagged (js "locality") c)
  /\ city (extracted [componentOf "10" "street_number";
                      componentOf "London" "postal_town"])
     = Some (js "London").
Proof.
  assert (H : forall c, In c [componentOf "10" "street_number";
                              componentOf "London" "postal_town"] ->
                        ~ tagged (js "locality") c).
  { intros c [<-|[<-|[]]]; unfold tagged; vm_compute; discriminate. }
  split; [exact H|].
  destruct (extracted_city [componentOf "10" "street_number";
                            componentOf "London" "postal_town"])
    as (_ & _ & Hno).
  rewrite (Hno H). reflexivity.
Defined.

(** ** The classifier *)

Lemma find_exact_nonCountry results :
  find isExactMatch (nonCountryResults results) = find isExactMatch results.
Proof. now rewrite !find_filter, exact_nonCountry. Qed.

Lemma nonCountryResults_idem results :
  nonCountryResults (nonCountryResults results) = nonCountryResults results.
Proof.
  unfold nonCountryResults. induction results as [|r t IH]; [reflexivity|].
  simpl. destruct (countryOnly r) eqn:Hr; simpl; now rewrite ?Hr, IH.
Qed.

Lemma find_some_nonempty {A : Type} (p : A -> bool) l x :
  find p l = Some x -> l <> [].
Proof. now destruct l. Qed.

(** X8.  On results of the provider's shape (each with a string
    [formatted_address], each component with its [types] array) the
    classifier throws exactly when the first candidate that is not a
    partial match and has location type ROOFTOP has no
    [address_components]. *)
Theorem classify_throws_iff results input :
  (exists e, classifyGeocodeResults results input = Throw e)
  <-> exists best, find isExactMatch results = Some best
                   /\ address_components best = None.
Proof.
  rewrite classify_cases, <- (find_exact_nonCountry results).
  destruct results as [|r0 t] eqn:E.
  { split; [intros [e He]; discriminate He|].
    intros (b & Hb & _). simpl in Hb. discriminate Hb. }
  rewrite <- E.
  destruct (nonCountryResults results) as [|n ns] eqn:En.
  { split; [intros [e He]; discriminate He|].
    intros (b & Hb & _). simpl in Hb. discriminate Hb. }
  rewrite <- En.
  destruct (find isExactMatch (nonCountryResults results)) as [best|].
  - destruct (address_components best) as [cs|] eqn:Hc;
      cbn [extractAddressComponents bind].
    + split.
      * destruct (compareAddresses input (formatted_address best));
          intros [e He]; discriminate He.
      * intros (b & [= <-] & Hb). congruence.
    + split; [|now eexists]. intros _. now exists best.
  - split; [|intros (b & Hb & _); discriminate Hb].
    destruct (filter isPossibleMatch (nonCountryResults results));
      intros [e He]; discriminate He.
Qed.

(** X9.  An Exact outcome always comes from the first candidate that is
    not a partial match and has location type ROOFTOP: it carries that
    candidate's formatted address and extracted components, and the
    comparator validated the input against that address. *)
Theorem exact_outcome_origin results input formatted components :
  classifyGeocodeResults results input = Ok (VALIDATED formatted components) ->
  exists best cs,
    find isExactMatch results = Some best
    /\ formatted = formatted_address best
    /\ address_components best = Some cs
    /\ components = extracted cs
    /\ compareAddresses input formatted = validated.
Proof.
  rewrite classify_cases, <- (find_exact_nonCountry results).
  destruct results as [|r0 t] eqn:E; [discriminate|]. rewrite <- E.
  destruct (nonCountryResults results) as [|n ns] eqn:En; [discriminate|].
  rewrite <- En.
  destruct (find isExactMatch (nonCountryResults results)) as [best|].
  - destruct (address_components best) as [cs|] eqn:Hc;
      cbn [extractAddressComponents bind]; [|discriminate].
    destruct (compareAddresses input (formatted_address best)) eqn:Hv;
      [|discriminate].
    intros [= <- <-]. now exists best, cs.
  - destruct (filter isPossibleMatch (nonCountryResults results));
      discriminate.
Qed.

Lemma exact_outcome_origin_witness :
  classifyGeocodeResults [googleplex]
    (js "1600 amphitheatre pkwy mountain view ca")
  = Ok (VALIDATED (formatted_address googleplex)
          (extracted (componentsOrEmpty googleplex)))
  /\ exists best cs,
       find isExactMatch [googleplex] = Some best
       /\ formatted_address googleplex = formatted_address best
       /\ address_components best = Some cs
       /\ extracted (componentsOrEmpty googleplex) = extracted cs
       /\ compareAddresses (js "1600 amphitheatre pkwy mountain view ca")
            (formatted_address googleplex) = validated.
Proof.
  assert (H : classifyGeocodeResults [googleplex]
                (js "1600 amphitheatre pkwy mountain view ca")
              = Ok (VALIDATED (formatted_address googleplex)
                      (extracted (componentsOrEmpty googleplex))))
    by (vm_compute; reflexivity).
  split; [exact H|].
  exact (exact_outcome_origin [googleplex]
           (js "1600 amphitheatre pkwy mountain view ca") _ _ H).
Defined.

(** X10.  Country-only fallbacks have no influence beyond their removal:
    when some candidate survives the filter, classifying the survivors
    alone gives the outcome of the whole list. *)
Theorem classify_without_country_only results input :
  nonCountryResults results <> [] ->
  classifyGeocodeResults (nonCountryResults results) input
  = classifyGeocodeResults results input.
Proof.
  intros Hne. rewrite !classify_cases, nonCountryResults_idem.
  destruct (nonCountryResults results) as [|n ns] eqn:En; [now elim Hne|].
  destruct results as [|r0 t]; [discriminate En | reflexivity].
Qed.

Lemma classify_without_country_only_witness :
  nonCountryResults [emptyRoute; springfield "IL"] <> []
  /\ classifyGeocodeResults [springfield "IL"] (js "123 Main St")
     = classifyGeocodeResults [emptyRoute; springfield "IL"] (js "123 Main St").
Proof.
  assert (H : nonCountryResults [emptyRoute; springfield "IL"] <> [])
    by (vm_compute; discriminate).
  split; [exact H|].
  exact (classify_without_country_only [emptyRoute; springfield "IL"]
           (js "123 Main St") H).
Defined.

Lemma classify_same_first_exact results results' input best :
  find isExactMatch results = Some best ->
  find isExactMatch results' = Some best ->
  classifyGeocodeResults results input = classifyGeocodeResults results' input.
Proof.
  intros H H'. rewrite <- find_exact_nonCountry in H, H'.
  rewrite !classify_cases.
  pose proof (find_some_nonempty _ _ _ H) as Hn.
  pose proof (find_some_nonempty _ _ _ H') as Hn'.
  rewrite H, H'.
  destruct results as [|r t]; [discriminate H|].
  destruct results' as [|r' t']; [discriminate H'|].
  destruct (nonCountryResults (r :: t)); [now elim Hn|].
  destruct (nonCountryResults (r' :: t')); [now elim Hn'|].
  reflexivity.
Qed.

Lemma find_app_first {A : Type} (p : A -> bool) before x after :
  (forall y, In y before -> p y = false) -> p x = true ->
  find p (before ++ x :: after) = Some x.
Proof.
  intros Hb Hx. induction before as [|y before IH]; simpl.
  - now rewrite Hx.
  - rewrite (Hb y) by now left. apply IH. intros z Hz. apply Hb. now right.
Qed.

(** X11.  A list of results of the provider's shape (each with a string
    [formatted_address], each component with its [types] array) that
    contains a candidate that is not a partial match and has location
    type ROOFTOP is classified like its first such candidate alone: the
    candidates before and after it do not matter. *)
Theorem classify_as_first_exact_alone before best after input :
  (forall r, In r before -> isExactMatch r = false) ->
  isExactMatch best = true ->
  classifyGeocodeResults (before ++ best :: after) input
  = classifyGeocodeResults [best] input.
Proof.
  intros Hb Hbest.
  apply (classify_same_first_exact _ _ input best).
  - now apply find_app_first.
  - simpl. now rewrite Hbest.
Qed.

Lemma classify_as_first_exact_alone_witness :
  (forall r, In r [springfield "IL"] -> isExactMatch r = false)
  /\ isExactMatch oakAvenue = true
  /\ classifyGeocodeResults ([springfield "IL"] ++ oakAvenue :: [mainStreet])
       (js "Main Street")
     = classifyGeocodeResults [oakAvenue] (js "Main Street").
Proof.
  assert (H : forall r, In r [springfield "IL"] -> isExactMatch r = false)
    by (intros r [<-|[]]; reflexivity).
  split; [exact H|]. split; [reflexivity|].
  exact (classify_as_first_exact_alone [springfield "IL"] oakAvenue
           [mainStreet] (js "Main Street") H eq_refl).
Defined.

Lemma filter_nil_iff {A : Type} (p : A -> bool) l :
  filter p l = [] <-> forall x, In x l -> p x = false.
Proof.
  induction l as [|y l IH]; simpl; [tauto|].
  destruct (p y) eqn:Hy; split.
  - discriminate.
  - intros H. specialize (H y (or_introl eq_refl)). congruence.
  - intros H x [<-|Hx]; [exact Hy | now apply IH].
  - intros H. apply IH. intros x Hx. apply H. now right.
Qed.

(** X12.  The outcome is Unverifiable in two cases only: with the message
    "No address found." for the empty list, and with the message
    "No precise US match found." for a non-empty list in which every
    candidate is a country-only fallback or is neither an exact nor a
    possible match. *)
Theorem unverifiable_iff results input message :
  classifyGeocodeResults results input = Ok (UNVERIFIABLE message)
  <-> (results = [] /\ message = js "No address found.")
      \/ (results <> []
          /\ message = js "No precise US match found."
          /\ forall r, In r results ->
               countryOnly r = true
               \/ (isExactMatch r = false /\ isPossibleMatch r = false)).
Proof.
  rewrite classify_cases.
  destruct results as [|r0 t] eqn:E.
  { split; [intros [= <-]; now left|].
    intros [[_ ->]|[Hne _]]; [reflexivity | now elim Hne]. }
  rewrite <- E.
  assert (Hne : results <> []) by (rewrite E; discriminate).
  assert (Hsurvive : forall r, In r results -> countryOnly r = false ->
                               In r (nonCountryResults results)).
  { intros r Hr Hc. apply filter_In. split; [exact Hr | now rewrite Hc]. }
  destruct (nonCountryResults results) as [|n ns] eqn:En.
  { split.
    - intros [= <-]. right. split; [exact Hne|]. split; [reflexivity|].
      intros r Hr. left. destruct (countryOnly r) eqn:Hc; [reflexivity|].
      now elim (Hsurvive r Hr Hc).
    - intros [[H _]|(_ & -> & _)]; [now elim Hne | reflexivity]. }
  rewrite <- En in *. rewrite find_filter.
  destruct (filter isExactMatch (nonCountryResults results))
    as [|best rest] eqn:Hex; cbn [hd_error].
  - destruct (filter isPossibleMatch (nonCountryResults results))
      as [|p ps] eqn:Hpo.
    + split.
      * intros [= <-]. right. split; [exact Hne|]. split; [reflexivity|].
        intros r Hr. destruct (countryOnly r) eqn:Hc; [now left | right].
        pose proof (Hsurvive r Hr Hc) as Hin.
        split; [exact (proj1 (filter_nil_iff _ _) Hex r Hin)
               | exact (proj1 (filter_nil_iff _ _) Hpo r Hin)].
      * intros [[H _]|(_ & -> & _)]; [now elim Hne | reflexivity].
    + split; [discriminate|].
      intros [[H _]|(_ & _ & Hall)]; [now elim Hne|]. exfalso.
      assert (Hp : In p (filter isPossibleMatch (nonCountryResults results)))
        by (rewrite Hpo; now left).
      apply filter_In in Hp as [Hp Hpp]. apply filter_In in Hp as [Hp Hpc].
      apply negb_true_iff in Hpc.
      destruct (Hall p Hp) as [H|[_ H]]; congruence.
  - split.
    + destruct (extractAddressComponents (address_components best));
        [|discriminate].
      cbn [bind].
      destruct (compareAddresses input (formatted_address best)); discriminate.
    + intros [[H _]|(_ & _ & Hall)]; [now elim Hne|]. exfalso.
      assert (Hb : In best (filter isExactMatch (nonCountryResults results)))
        by (rewrite Hex; now left).
      apply filter_In in Hb as [Hb Hbe]. apply filter_In in Hb as [Hb Hbc].
      apply negb_true_iff in Hbc.
      destruct (Hall best Hb) as [H|[H _]]; congruence.
Qed.

(** ** The geocoding service *)

Lemma rethrow_is_http err :
  exists e, rethrowAxiosAsHttpError err = ThrownHttp e.
Proof.
  destruct err as [e|[st|]|e]; simpl; try (now eexists).
  destruct (st =? 403)%N; [now eexists|].
  destruct (st =? 429)%N; [now eexists|].
  destruct (negb (st =? 0)%N && (500 <=? st)%N); now eexists.
Qed.

Lemma tryRethrow_raised {A : Type} (o : Outcome A) t :
  tryRethrow o = Raised t -> exists e, t = ThrownHttp e.
Proof.
  destruct o as [a|err]; simpl; [discriminate|].
  intros [= <-]. apply rethrow_is_http.
Qed.

(** X13.  For an address of code units below 256, on which
    [encodeURIComponent] does not throw, and whatever the provider does,
    [validateUSAddress] returns an outcome or throws an [HttpError]:
    every error raised inside the [try] leaves it as an [HttpError]. *)
Theorem validateUSAddress_throws_http axiosGet geocodingUrl address apiKey t :
  validateUSAddress axiosGet geocodingUrl address apiKey = Raised t ->
  exists e, t = ThrownHttp e.
Proof.
  unfold validateUSAddress. intros H.
  now apply tryRethrow_raised in H.
Qed.

Lemma validateUSAddress_throws_http_witness :
  validateUSAddress
    (answering {| data_status := js "OK";
                  data_results := Some [rooftopWithoutComponents] |})
    (js "https://maps.googleapis.com/maps/api/geocode/json")
    (js "1 Main St") (js "k")
  = Raised (ThrownHttp {| statusCode := Some 500%N;
                          message := js "Unexpected error during geocoding";
                          details := MessageOf TypeError |})
  /\ exists e,
       ThrownHttp {| statusCode := Some 500%N;
                     message := js "Unexpected error during geocoding";
                     details := MessageOf TypeError |} = ThrownHttp e.
Proof.
  split; [reflexivity|].
  apply (validateUSAddress_throws_http
           (answering {| data_status := js "OK";
                         data_results := Some [rooftopWithoutComponents] |})
           (js "https://maps.googleapis.com/maps/api/geocode/json")
           (js "1 Main St") (js "k")).
  reflexivity.
Defined.

Lemma mapGoogleStatus_codes st e :
  includes objectPrototypeNames st = false ->
  mapGoogleStatus st = Raised (ThrownHttp e) ->
  In (statusCode e) [Some 400; Some 403; Some 429; Some 502; Some 503]%N.
Proof.
  intros Hplain. unfold mapGoogleStatus, lookupStatus. rewrite Hplain.
  destruct (strictEq st (js "OK")); [discriminate|].
  destruct (strictEq st (js "ZERO_RESULTS")); [discriminate|].
  unfold statusToError. cbn [find fst snd].
  repeat (destruct (strictEq _ st);
          [intros [= <-]; cbn [statusCode code]; simpl; tauto|]).
  intros [= <-]. simpl. tauto.
Qed.

Lemma rethrow_codes err e :
  (forall e', err = ThrownHttp e' -> In (statusCode e') answeredStatuses) ->
  rethrowAxiosAsHttpError err = ThrownHttp e ->
  In (statusCode e) answeredStatuses.
Proof.
  intros Hhttp. destruct err as [e'|[st|]|e']; simpl.
  - intros [= <-]. now apply Hhttp.
  - destruct (st =? 403)%N; [intros [= <-]; simpl; tauto|].
    destruct (st =? 429)%N; [intros [= <-]; simpl; tauto|].
    destruct (negb (st =? 0)%N && (500 <=? st)%N);
      intros [= <-]; simpl; tauto.
  - intros [= <-]. simpl. tauto.
  - intros [= <-]. simpl. tauto.
Qed.

Lemma validateUSAddress_codes axiosGet geocodingUrl address apiKey e :
  plainStatuses axiosGet ->
  validateUSAddress axiosGet geocodingUrl address apiKey
  = Raised (ThrownHttp e) ->
  In (statusCode e) answeredStatuses.
Proof.
  intros Hplain. unfold validateUSAddress.
  destruct (axiosGet (urlOf geocodingUrl address apiKey))
    as [data|st|e'] eqn:Hget; cbn [tryRethrow].
  - apply Hplain in Hget.
    destruct (mapGoogleStatus (data_status data)) as [[out|]|err] eqn:Hmap;
      cbn [tryRethrow]; [discriminate| |].
    + destruct (classifyResults (data_results data) address);
        cbn [ofResult tryRethrow]; [discriminate|].
      intros [= <-]. simpl. tauto.
    + intros H.
      assert (H' : rethrowAxiosAsHttpError err = ThrownHttp e) by congruence.
      revert H'. apply rethrow_codes.
      intros e' ->. pose proof (mapGoogleStatus_codes _ _ Hget Hmap) as Hin.
      simpl in Hin. simpl. tauto.
  - intros H.
    assert (H' : rethrowAxiosAsHttpError (ThrownAxios st) = ThrownHttp e)
      by congruence.
    revert H'. apply rethrow_codes. discriminate.
  - intros [= <-]. simpl. tauto.
Qed.

(** ** Payload validation *)

Lemma replace_class cls s :
  replace (re_class cls) (js "") s = filter (fun c => negb (cls c)) s.
Proof.
  unfold replace. generalize (@None ascii).
  induction s as [|c t IH]; intros prev; simpl; [reflexivity|].
  destruct (cls c); simpl; now rewrite IH.
Qed.

Lemma test_class cls s : test (re_class cls) s = existsb cls s.
Proof.
  unfold test. generalize (@None ascii).
  induction s as [|c t IH]; intros prev; simpl; [reflexivity|].
  destruct (cls c); simpl; [reflexivity | apply IH].
Qed.

Lemma re_plus_cons cls prev c t :
  re_plus cls prev (c :: t)
  = if cls c then Some (S (classRun cls t)) else None.
Proof. unfold re_plus. simpl. now destruct (cls c). Qed.

Lemma replace_plus_from cls s :
  forall prev,
    replaceFrom (re_plus cls) (js " ") prev (classRun cls s) s
    = collapseClass cls true s
    /\ replaceFrom (re_plus cls) (js " ") prev 0 s = collapseClass cls false s.
Proof.
  induction s as [|c t IH]; intros prev; [now split|].
  pose proof (IH (Some c)) as [IHrun IH0].
  cbn [classRun collapseClass].
  destruct (cls c) eqn:Hc; cbn [replaceFrom]; rewrite ?re_plus_cons, ?Hc.
  - split; [exact IHrun|]. now rewrite IHrun.
  - split; now rewrite IH0.
Qed.

Lemma replace_plus cls s :
  replace (re_plus cls) (js " ") s = collapseClass cls false s.
Proof. apply replace_plus_from. Qed.

Lemma crlftab_space c : isCrLfTab c = true -> isSpace c = true.
Proof. by_cases_on_char c. Qed.

(** Collapsing the runs of CR, LF and TAB first makes no difference to
    the collapse of whitespace. *)
Lemma collapseRuns_collapseClass s : forall inRun inRun',
  (inRun' = true -> inRun = true) ->
  collapseRuns inRun (collapseClass isCrLfTab inRun' s) = collapseRuns inRun s.
Proof.
  induction s as [|c t IH]; intros inRun inRun' Hrun; [reflexivity|].
  cbn [collapseClass]. destruct (isCrLfTab c) eqn:Hc.
  - pose proof (crlftab_space c Hc) as Hs. destruct inRun'.
    + rewrite (Hrun eq_refl). simpl. rewrite Hs. now apply IH.
    + simpl. rewrite Hs. destruct inRun; [|f_equal]; now apply IH.
  - simpl. destruct (isSpace c); [destruct inRun; [|f_equal]|f_equal];
      apply IH; congruence.
Qed.

(** The value the middleware stores for a payload it lets through. *)
Lemma payload_cases raw :
  validateAddressPayload (Some raw)
  = let withoutNull := filter (fun c => negb (isNul c)) raw in
    if existsb isDisallowedControl withoutNull
    then NextError
           (BadRequestError
              (js "'address' contains invalid control characters"))
    else
      match trim (collapseRuns false withoutNull) with
      | [] => NextError
                (BadRequestError (js "'address' must be a non-empty string"))
      | normalized =>
          if MAX_ADDRESS_LENGTH <? length raw
          then NextError
                 (BadRequestError (js "'address' exceeds 512 characters"))
          else NextWith normalized
      end.
Proof.
  unfold validateAddressPayload.
  rewrite replace_class, test_class, replace_plus, replace_ws.
  rewrite collapseRuns_collapseClass by discriminate.
  cbv zeta. destruct (existsb _ _); [reflexivity|].
  now destruct (trim _).
Qed.

Lemma payload_accepted raw n :
  validateAddressPayload (Some raw) = NextWith n ->
  existsb isDisallowedControl (filter (fun c => negb (isNul c)) raw) = false
  /\ n = trim (collapseRuns false (filter (fun c => negb (isNul c)) raw))
  /\ n <> []
  /\ length raw <= MAX_ADDRESS_LENGTH.
Proof.
  rewrite payload_cases. cbv zeta.
  destruct (existsb _ _); [discriminate|].
  destruct (trim _) as [|c t] eqn:E; [discriminate|].
  destruct (MAX_ADDRESS_LENGTH <? length raw) eqn:Hlen; [discriminate|].
  intros [= <-]. apply Nat.ltb_ge in Hlen.
  repeat split; [discriminate | exact Hlen].
Qed.

Lemma length_collapseRuns s : forall inRun,
  length (collapseRuns inRun s) <= length s.
Proof.
  induction s as [|c t IH]; intros inRun; simpl; [lia|].
  pose proof (IH true). pose proof (IH false).
  destruct (isSpace c); [destruct inRun|]; simpl; lia.
Qed.

Lemma length_trimStart s : length (trimStart s) <= length s.
Proof.
  induction s as [|c t IH]; simpl; [lia|]. destruct (isSpace c); simpl; lia.
Qed.

Lemma length_trimEnd s : length (trimEnd s) <= length s.
Proof.
  induction s as [|c t IH]; [simpl; lia|]. rewrite trimEnd_cons.
  destruct (trimEnd t); [destruct (isSpace c)|]; simpl in *; lia.
Qed.

Lemma Forall_collapseRuns_nonspace (P : ascii -> Prop) s : forall inRun,
  P " "%char -> Forall (fun c => isSpace c = false -> P c) s ->
  Forall P (collapseRuns inRun s).
Proof.
  induction s as [|c t IH]; intros inRun Hsp Hs; simpl; [constructor|].
  inversion Hs as [|? ? Hc Ht]; subst.
  destruct (isSpace c); [destruct inRun|]; try constructor; auto.
Qed.

Lemma control_is_blank_or_disallowed c :
  isControl c = true -> isSpace c = false -> isDisallowedControl c = true.
Proof. by_cases_on_char c. Qed.

Lemma normalized_no_control w :
  existsb isDisallowedControl w = false ->
  Forall (fun c => isControl c = false) (trim (collapseRuns false w)).
Proof.
  intros Hctl. unfold trim. apply Forall_trimEnd, Forall_trimStart.
  apply Forall_collapseRuns_nonspace; [reflexivity|].
  apply Forall_forall. intros c Hc Hs.
  destruct (isControl c) eqn:Hcc; [|reflexivity].
  pose proof (control_is_blank_or_disallowed c Hcc Hs) as Hd.
  assert (Hex : existsb isDisallowedControl w = true)
    by (apply existsb_exists; now exists c).
  congruence.
Qed.

Lemma normalized_length w : length (trim (collapseRuns false w)) <= length w.
Proof.
  unfold trim.
  pose proof (length_trimEnd (trimStart (collapseRuns false w))).
  pose proof (length_trimStart (collapseRuns false w)).
  pose proof (length_collapseRuns w false). lia.
Qed.

(** X14.  An address that the middleware lets through is not empty, has
    no whitespace at either end, has its whitespace reduced to single
    spaces, contains no control character, and is no longer than the raw
    payload, which has at most 512 characters. *)
Theorem accepted_payload_is_clean raw n :
  validateAddressPayload (Some raw) = NextWith n ->
  n <> []
  /\ trim n = n
  /\ replace re_ws (js " ") n = n
  /\ Forall (fun c => isControl c = false) n
  /\ length n <= length raw
  /\ length raw <= 512.
Proof.
  intros H. apply payload_accepted in H as (Hctl & -> & Hne & Hlen).
  split; [exact Hne|]. split; [apply trim_idem|].
  split; [rewrite replace_ws; apply collapse_trim_collapse|].
  split; [now apply normalized_no_control|]. split; [|exact Hlen].
  pose proof (normalized_length (filter (fun c => negb (isNul c)) raw)).
  pose proof (filter_length_le (fun c => negb (isNul c)) raw). lia.
Qed.

Lemma accepted_payload_is_clean_witness :
  validateAddressPayload (Some (js "  12   Main St.  "))
  = NextWith (js "12 Main St.")
  /\ trim (js "12 Main St.") = js "12 Main St."
  /\ length (js "12 Main St.") <= length (js "  12   Main St.  ").
Proof.
  assert (H : validateAddressPayload (Some (js "  12   Main St.  "))
              = NextWith (js "12 Main St.")) by (vm_compute; reflexivity).
  split; [exact H|].
  destruct (accepted_payload_is_clean _ _ H) as (_ & Ht & _ & _ & Hl & _).
  split; [exact Ht | exact Hl].
Defined.

Lemma nul_is_control c : isNul c = true -> isControl c = true.
Proof. by_cases_on_char c. Qed.

Lemma disallowed_is_control c :
  isDisallowedControl c = true -> isControl c = true.
Proof. by_cases_on_char c. Qed.

Lemma filter_all {A : Type} (p : A -> bool) l :
  Forall (fun x => p x = true) l -> filter p l = l.
Proof.
  induction 1 as [|x l Hx _ IH]; [reflexivity|]. simpl. now rewrite Hx, IH.
Qed.

Lemma existsb_none {A : Type} (p : A -> bool) l :
  Forall (fun x => p x = false) l -> existsb p l = false.
Proof.
  induction 1 as [|x l Hx _ IH]; [reflexivity|]. simpl. now rewrite Hx, IH.
Qed.

(** X15.  An address that the middleware let through passes the
    middleware again, unchanged. *)
Theorem accepted_payload_is_stable raw n :
  validateAddressPayload (Some raw) = NextWith n ->
  validateAddressPayload (Some n) = NextWith n.
Proof.
  intros H. apply payload_accepted in H as (Hctl & Hn & Hne & Hraw).
  pose proof (normalized_no_control _ Hctl) as Hclean.
  pose proof (normalized_length (filter (fun c => negb (isNul c)) raw)) as Hlen.
  pose proof (filter_length_le (fun c => negb (isNul c)) raw) as Hfil.
  rewrite <- Hn in Hclean, Hlen. clear Hctl.
  assert (Htrim : trim n = n) by (rewrite Hn; apply trim_idem).
  assert (Hws : collapseRuns false n = n)
    by (rewrite Hn; apply collapse_trim_collapse).
  clear Hn. rename Hclean into Hctl.
  rewrite payload_cases. cbv zeta.
  assert (Hnul : filter (fun c => negb (isNul c)) n = n).
  { apply filter_all. eapply Forall_impl; [|exact Hctl]. intros c Hc.
    simpl in Hc. destruct (isNul c) eqn:Hn; [|reflexivity].
    apply nul_is_control in Hn. congruence. }
  rewrite Hnul.
  assert (Hdis : existsb isDisallowedControl n = false).
  { apply existsb_none. eapply Forall_impl; [|exact Hctl]. intros c Hc.
    simpl in Hc. destruct (isDisallowedControl c) eqn:Hd; [|reflexivity].
    apply disallowed_is_control in Hd. congruence. }
  rewrite Hdis, Hws, Htrim.
  destruct n as [|c t]; [now elim Hne|].
  replace (MAX_ADDRESS_LENGTH <? length (c :: t)) with false; [reflexivity|].
  symmetry. apply Nat.ltb_ge. unfold MAX_ADDRESS_LENGTH in *. lia.
Qed.

Lemma accepted_payload_is_stable_witness :
  validateAddressPayload (Some (js "  12   Main St.  "))
  = NextWith (js "12 Main St.")
  /\ validateAddressPayload (Some (js "12 Main St."))
     = NextWith (js "12 Main St.").
Proof.
  assert (H : validateAddressPayload (Some (js "  12   Main St.  "))
              = NextWith (js "12 Main St.")) by (vm_compute; reflexivity).
  split; [exact H|].
  exact (accepted_payload_is_stable _ _ H).
Defined.

Lemma collapseRuns_all_space s : forall inRun,
  forallb isSpace s = true ->
  collapseRuns inRun s = if inRun then [] else match s with
                                               | [] => []
                                               | _ :: _ => [" "%char]
                                               end.
Proof.
  induction s as [|c t IH]; intros inRun Hs; [now destruct inRun|].
  simpl in Hs. apply andb_true_iff in Hs as [Hc Ht]. simpl. rewrite Hc.
  rewrite (IH true Ht). now destruct inRun.
Qed.

Lemma In_collapseRuns c s : forall inRun,
  In c s -> isSpace c = false -> In c (collapseRuns inRun s).
Proof.
  induction s as [|x t IH]; intros inRun Hin Hc; [contradiction|].
  simpl. destruct Hin as [->|Hin].
  - rewrite Hc. now left.
  - destruct (isSpace x); [destruct inRun|]; simpl; auto.
Qed.

Lemma In_trimStart c s :
  In c s -> isSpace c = false -> In c (trimStart s).
Proof.
  induction s as [|x t IH]; intros Hin Hc; [contradiction|]. simpl.
  destruct (isSpace x) eqn:Hx; [|exact Hin].
  destruct Hin as [->|Hin]; [congruence | auto].
Qed.

Lemma In_trimEnd c s :
  In c s -> isSpace c = false -> In c (trimEnd s).
Proof.
  induction s as [|x t IH]; intros Hin Hc; [contradiction|].
  rewrite trimEnd_cons. destruct Hin as [->|Hin].
  - rewrite Hc. destruct (trimEnd t); now left.
  - specialize (IH Hin Hc). destruct (trimEnd t); [contradiction|].
    now right.
Qed.

Lemma normalized_nil_iff w :
  trim (collapseRuns false w) = [] <-> forallb isSpace w = true.
Proof.
  split.
  - intros Hnil. apply forallb_forall. intros c Hc.
    destruct (isSpace c) eqn:Hs; [reflexivity|]. exfalso.
    assert (Hin : In c (trim (collapseRuns false w))).
    { unfold trim. apply In_trimEnd; [|exact Hs].
      apply In_trimStart; [|exact Hs]. now apply In_collapseRuns. }
    now rewrite Hnil in Hin.
  - intros Hall. rewrite (collapseRuns_all_space w false Hall).
    now destruct w.
Qed.

(** X16.  The middleware answers "'address' must be a non-empty string"
    exactly for the payloads made of NUL and of whitespace other than
    vertical tab and form feed, whatever their length; the empty string
    is one of them. *)
Theorem payload_blank_iff raw :
  validateAddressPayload (Some raw)
  = NextError (BadRequestError (js "'address' must be a non-empty string"))
  <-> forallb isBlank raw = true.
Proof.
  rewrite payload_cases. cbv zeta.
  set (w := filter (fun c => negb (isNul c)) raw).
  split.
  - destruct (existsb isDisallowedControl w) eqn:Hctl.
    { intros H. vm_compute in H. discriminate H. }
    destruct (trim (collapseRuns false w)) as [|c t] eqn:Hn.
    + intros _. apply normalized_nil_iff in Hn.
      apply forallb_forall. intros c Hc. unfold isBlank.
      destruct (isNul c) eqn:Hnul; [reflexivity|]. simpl.
      assert (Hw : In c w) by (apply filter_In; now rewrite Hnul).
      rewrite (proj1 (forallb_forall _ _) Hn c Hw). simpl.
      destruct (isDisallowedControl c) eqn:Hd; [|reflexivity].
      assert (existsb isDisallowedControl w = true)
        by (apply existsb_exists; now exists c).
      congruence.
    + destruct (MAX_ADDRESS_LENGTH <? length raw); [|discriminate].
      intros H. injection H as H. vm_compute in H. discriminate H.
  - intros Hblank.
    assert (Hw : forall c, In c w ->
                   isSpace c = true /\ isDisallowedControl c = false).
    { intros c Hc. apply filter_In in Hc as [Hc Hnul].
      apply negb_true_iff in Hnul.
      pose proof (proj1 (forallb_forall _ _) Hblank c Hc) as Hb.
      unfold isBlank in Hb. rewrite Hnul in Hb. simpl in Hb.
      apply andb_true_iff in Hb as [Hs Hd]. apply negb_true_iff in Hd.
      now split. }
    replace (existsb isDisallowedControl w) with false.
    + replace (trim (collapseRuns false w)) with (@nil ascii);
        [reflexivity|].
      symmetry. apply normalized_nil_iff, forallb_forall.
      intros c Hc. now apply Hw.
    + symmetry. apply existsb_none, Forall_forall.
      intros c Hc. now apply Hw.
Qed.

(** ** The middleware and the comparator *)

Lemma trimStart_collapse_true s :
  trimStart (collapseRuns true s) = collapseRuns true s.
Proof.
  induction s as [|c t IH]; [reflexivity|]. simpl.
  destruct (isSpace c) eqn:Hc; [exact IH|]. simpl. now rewrite Hc.
Qed.

Lemma trim_collapse s :
  trim (collapseRuns false s) = trimEnd (collapseRuns true s).
Proof.
  unfold trim. destruct s as [|c t]; [reflexivity|]. cbn [collapseRuns].
  destruct (isSpace c) eqn:Hc; cbn [trimStart].
  - change (isSpace " "%char) with true. cbv iota.
    now rewrite trimStart_collapse_true.
  - now rewrite Hc.
Qed.

Lemma space_not_punct c : isSpace c = true -> isPunct c = false.
Proof. by_cases_on_char c. Qed.

Lemma collapse_strip_collapse s : forall inRun inRun',
  (inRun' = true -> inRun = true) ->
  collapseRuns inRun (stripPunctuation (collapseRuns inRun' s))
  = collapseRuns inRun (stripPunctuation s).
Proof.
  unfold stripPunctuation.
  induction s as [|c t IH]; intros inRun inRun' Hrun; [reflexivity|].
  cbn [collapseRuns filter]. destruct (isSpace c) eqn:Hs.
  - rewrite (space_not_punct c Hs). cbn [negb collapseRuns]. rewrite Hs.
    destruct inRun'.
    + rewrite (Hrun eq_refl). now apply IH.
    + cbn [filter]. change (isPunct " "%char) with false.
      cbn [negb collapseRuns]. change (isSpace " "%char) with true.
      destruct inRun; [|f_equal]; now apply IH.
  - cbn [filter]. destruct (isPunct c); cbn [negb collapseRuns].
    + apply IH. discriminate.
    + rewrite Hs. f_equal. now apply IH.
Qed.

Lemma trimEnd_snoc p c :
  trimEnd (p ++ [c]) = if isSpace c then trimEnd p else p ++ [c].
Proof.
  rewrite trimEnd_app. simpl. now destruct (isSpace c).
Qed.

Lemma trimEnd_collapse_snoc x c : forall inRun,
  isSpace c = true ->
  trimEnd (collapseRuns inRun (x ++ [c])) = trimEnd (collapseRuns inRun x).
Proof.
  induction x as [|y x IH]; intros inRun Hc.
  - simpl. rewrite Hc. now destruct inRun.
  - cbn [app collapseRuns]. destruct (isSpace y).
    + destruct inRun; [now apply IH|].
      change (" "%char :: ?l) with ([" "%char] ++ l).
      now rewrite !trimEnd_app, IH.
    + change (y :: ?l) with ([y] ++ l).
      now rewrite !trimEnd_app, IH.
Qed.

Lemma trimEnd_strip_trimEnd v : forall inRun,
  trimEnd (collapseRuns inRun (stripPunctuation (trimEnd v)))
  = trimEnd (collapseRuns inRun (stripPunctuation v)).
Proof.
  induction v as [|c p IH] using rev_ind; intros inRun; [reflexivity|].
  rewrite trimEnd_snoc. destruct (isSpace c) eqn:Hc; [|reflexivity].
  unfold stripPunctuation in *. rewrite filter_app. simpl.
  rewrite (space_not_punct c Hc). simpl.
  now rewrite trimEnd_collapse_snoc, IH.
Qed.

Lemma isSpace_toLower1 c : isSpace (toLower1 c) = isSpace c.
Proof. by_cases_on_char c. Qed.

Lemma toLowerCase_collapseRuns s : forall inRun,
  toLowerCase (collapseRuns inRun s) = collapseRuns inRun (toLowerCase s).
Proof.
  unfold toLowerCase.
  induction s as [|c t IH]; intros inRun; [reflexivity|]. simpl.
  rewrite isSpace_toLower1.
  destruct (isSpace c); [destruct inRun|]; simpl; now rewrite IH.
Qed.

Lemma toLowerCase_trimEnd s :
  toLowerCase (trimEnd s) = trimEnd (toLowerCase s).
Proof.
  unfold toLowerCase. induction s as [|c t IH]; [reflexivity|].
  cbn [map]. rewrite !trimEnd_cons, <- IH, isSpace_toLower1.
  destruct (trimEnd t); [now destruct (isSpace c) | reflexivity].
Qed.

(** Normalizing after the whitespace normalization of the middleware is
    normalizing. *)
Lemma normalize_after_whitespace w :
  normalize (trim (collapseRuns false w)) = normalize w.
Proof.
  rewrite !normalize_spec. unfold spec_normalize.
  set (A := mapWords abbreviate []).
  assert (HA : forall z, trim (collapseRuns false (A z))
                         = A (trim (collapseRuns false z))).
  { intros z. unfold A.
    rewrite (mapWords_trim abbreviate abbreviate_nil abbreviate_allWord
               abbreviate_nonempty).
    now rewrite (mapWords_collapseRuns abbreviate abbreviate_nil
                   abbreviate_allWord abbreviate_nonempty)
      by (reflexivity || now intros []). }
  rewrite !HA. f_equal.
  rewrite !trim_collapse.
  rewrite toLowerCase_trimEnd, toLowerCase_collapseRuns.
  rewrite trimEnd_strip_trimEnd.
  now rewrite collapse_strip_collapse.
Qed.

Lemma classify_same_verdicts results input input' :
  (forall formatted,
     compareAddresses input formatted = compareAddresses input' formatted) ->
  classifyGeocodeResults results input = classifyGeocodeResults results input'.
Proof.
  intros Hsame. rewrite !classify_cases.
  destruct results as [|r t]; [reflexivity|].
  destruct (nonCountryResults (r :: t)); [reflexivity|].
  destruct (find isExactMatch (g :: l)) as [best|]; [|reflexivity].
  now rewrite Hsame.
Qed.

(** X17.  On payloads of code units below 256, the normalization of
    the middleware does not change the classification: for an address the
    middleware lets through, the comparator and the classifier decide on
    the stored address as they would on the raw payload without its NUL
    characters. *)
Theorem payload_normalization_keeps_classification raw n :
  validateAddressPayload (Some raw) = NextWith n ->
  let withoutNull := replace (re_class isNul) (js "") raw in
  normalize n = normalize withoutNull
  /\ (forall formatted,
        compareAddresses n formatted = compareAddresses withoutNull formatted)
  /\ (forall results,
        classifyGeocodeResults results n
        = classifyGeocodeResults results withoutNull).
Proof.
  intros H withoutNull. apply payload_accepted in H as (_ & -> & _ & _).
  unfold withoutNull. rewrite replace_class.
  set (w := filter (fun c => negb (isNul c)) raw).
  pose proof (normalize_after_whitespace w) as Hn.
  assert (Hc : forall formatted,
             compareAddresses (trim (collapseRuns false w)) formatted
             = compareAddresses w formatted).
  { intros formatted. unfold compareAddresses. now rewrite Hn. }
  split; [exact Hn|]. split; [exact Hc|].
  intros results. now apply classify_same_verdicts.
Qed.

Lemma payload_normalization_keeps_classification_witness :
  validateAddressPayload (Some (js "  12   Main St.  "))
  = NextWith (js "12 Main St.")
  /\ normalize (js "12 Main St.")
     = normalize (replace (re_class isNul) (js "") (js "  12   Main St.  ")).
Proof.
  assert (H : validateAddressPayload (Some (js "  12   Main St.  "))
              = NextWith (js "12 Main St.")) by (vm_compute; reflexivity).
  split; [exact H|].
  exact (proj1 (payload_normalization_keeps_classification _ _ H)).
Defined.

(** ** The endpoint *)

Lemma payload_error_is_400 raw e :
  validateAddressPayload raw = NextError e -> statusCode e = Some 400%N.
Proof.
  destruct raw as [raw|]; [|now intros [= <-]].
  rewrite payload_cases. cbv zeta.
  destruct (existsb _ _); [now intros [= <-]|].
  destruct (trim _); [now intros [= <-]|].
  destruct (_ <? _); [now intros [= <-] | discriminate].
Qed.

(** X18.  When the provider's status is not the name of a property
    inherited from [Object.prototype], the endpoint answers with one of
    the status codes 200, 400, 403, 429, 500, 502 and 503. *)
Theorem endpoint_status_codes axiosGet geocodingUrl googleApiKey raw :
  plainStatuses axiosGet ->
  In (status (postValidateAddress axiosGet geocodingUrl googleApiKey raw))
     answeredStatuses.
Proof.
  intros Hplain. unfold postValidateAddress.
  destruct (validateAddressPayload raw) as [e|address] eqn:Hp.
  - apply payload_error_is_400 in Hp. simpl. rewrite Hp. simpl. tauto.
  - unfold validateAddressController.
    destruct (validateUSAddress axiosGet geocodingUrl address googleApiKey)
      as [result|err] eqn:Hv; [simpl; tauto|].
    pose proof Hv as Hhttp. unfold validateUSAddress in Hhttp.
    apply tryRethrow_raised in Hhttp as [e ->]. simpl.
    now apply (validateUSAddress_codes axiosGet geocodingUrl address
                 googleApiKey).
Qed.

Lemma endpoint_status_codes_witness :
  plainStatuses (answering {| data_status := js "OVER_QUERY_LIMIT";
                              data_results := None |})
  /\ In (status (postValidateAddress
                   (answering {| data_status := js "OVER_QUERY_LIMIT";
                                 data_results := None |})
                   (js "https://maps.googleapis.com/maps/api/geocode/json")
                   (js "k") (Some (js "1 Main St"))))
        answeredStatuses.
Proof.
  assert (H : plainStatuses (answering {| data_status := js "OVER_QUERY_LIMIT";
                                          data_results := None |})).
  { intros url data [= <-]. reflexivity. }
  split; [exact H|].
  exact (endpoint_status_codes _
           (js "https://maps.googleapis.com/maps/api/geocode/json")
           (js "k") (Some (js "1 Main St")) H).
Defined.

Lemma mapGoogleStatus_not_200 st e :
  mapGoogleStatus st = Raised (ThrownHttp e) -> statusCode e <> Some 200%N.
Proof.
  unfold mapGoogleStatus, lookupStatus.
  destruct (strictEq st (js "OK")); [discriminate|].
  destruct (strictEq st (js "ZERO_RESULTS")); [discriminate|].
  unfold statusToError. cbn [find fst snd].
  repeat (destruct (strictEq _ st); [intros [= <-]; discriminate|]).
  destruct (includes objectPrototypeNames st); intros [= <-]; discriminate.
Qed.

Lemma rethrow_not_200 err e :
  (forall e', err = ThrownHttp e' -> statusCode e' <> Some 200%N) ->
  rethrowAxiosAsHttpError err = ThrownHttp e -> statusCode e <> Some 200%N.
Proof.
  intros Hhttp. destruct err as [e'|[st|]|e']; simpl.
  - intros [= <-]. now apply Hhttp.
  - destruct (st =? 403)%N; [intros [= <-]; discriminate|].
    destruct (st =? 429)%N; [intros [= <-]; discriminate|].
    destruct (negb (st =? 0)%N && (500 <=? st)%N);
      intros [= <-]; discriminate.
  - intros [= <-]. discriminate.
  - intros [= <-]. discriminate.
Qed.

Lemma validateUSAddress_not_200 axiosGet geocodingUrl address apiKey e :
  validateUSAddress axiosGet geocodingUrl address apiKey
  = Raised (ThrownHttp e) ->
  statusCode e <> Some 200%N.
Proof.
  unfold validateUSAddress.
  destruct (axiosGet (urlOf geocodingUrl address apiKey))
    as [data|st|e']; cbn [tryRethrow].
  - destruct (mapGoogleStatus (data_status data)) as [[out|]|err] eqn:Hmap;
      cbn [tryRethrow]; [discriminate| |].
    + destruct (classifyResults (data_results data) address);
        cbn [ofResult tryRethrow]; [discriminate|].
      intros [= <-]. discriminate.
    + intros H.
      assert (H' : rethrowAxiosAsHttpError err = ThrownHttp e) by congruence.
      revert H'. apply rethrow_not_200.
      intros e' ->. now apply (mapGoogleStatus_not_200 _ _ Hmap).
  - intros H.
    assert (H' : rethrowAxiosAsHttpError (ThrownAxios st) = ThrownHttp e)
      by congruence.
    revert H'. apply rethrow_not_200. discriminate.
  - intros [= <-]. discriminate.
Qed.

(** X19.  A response with status 200 is always a success: the middleware
    let the payload through, the service returned a result for the stored
    address, and the body carries that result with the stored address,
    not the raw payload, as [original_input]. *)
Theorem endpoint_200_is_success axiosGet geocodingUrl googleApiKey raw :
  status (postValidateAddress axiosGet geocodingUrl googleApiKey raw)
  = Some 200%N ->
  exists address result,
    validateAddressPayload raw = NextWith address
    /\ validateUSAddress axiosGet geocodingUrl address googleApiKey
       = Returned result
    /\ body (postValidateAddress axiosGet geocodingUrl googleApiKey raw)
       = SuccessBody address result.
Proof.
  unfold postValidateAddress.
  destruct (validateAddressPayload raw) as [e|address] eqn:Hp.
  - apply payload_error_is_400 in Hp. simpl. rewrite Hp. discriminate.
  - unfold validateAddressController.
    destruct (validateUSAddress axiosGet geocodingUrl address googleApiKey)
      as [result|err] eqn:Hv.
    + intros _. now exists address, result.
    + pose proof Hv as Hhttp. unfold validateUSAddress in Hhttp.
      apply tryRethrow_raised in Hhttp as [e ->]. simpl. intros H200.
      now elim (validateUSAddress_not_200 _ _ _ _ _ Hv).
Qed.

Lemma endpoint_200_is_success_witness :
  status (postValidateAddress
            (answering {| data_status := js "ZERO_RESULTS";
                          data_results := None |})
            (js "https://maps.googleapis.com/maps/api/geocode/json")
            (js "k") (Some (js "  zz  top ")))
  = Some 200%N
  /\ exists address result,
       validateAddressPayload (Some (js "  zz  top ")) = NextWith address
       /\ validateUSAddress
            (answering {| data_status := js "ZERO_RESULTS";
                          data_results := None |})
            (js "https://maps.googleapis.com/maps/api/geocode/json")
            address (js "k")
          = Returned result
       /\ body (postValidateAddress
                  (answering {| data_status := js "ZERO_RESULTS";
                                data_results := None |})
                  (js "https://maps.googleapis.com/maps/api/geocode/json")
                  (js "k") (Some (js "  zz  top ")))
          = SuccessBody address result.
Proof.
  assert (H : status (postValidateAddress
            (answering {| data_status := js "ZERO_RESULTS";
                          data_results := None |})
            (js "https://maps.googleapis.com/maps/api/geocode/json")
            (js "k") (Some (js "  zz  top "))) = Some 200%N)
    by (vm_compute; reflexivity).
  split; [exact H|].
  exact (endpoint_200_is_success _ _ _ _ H).
Defined.

(** ** Provider statuses *)

Lemma mapGoogleStatus_null st :
  mapGoogleStatus st = Returned None <-> st = js "OK".
Proof.
  unfold mapGoogleStatus. destruct (strictEq st (js "OK")) eqn:Hok.
  - apply strictEq_true in Hok. tauto.
  - split.
    + destruct (strictEq st (js "ZERO_RESULTS")); [discriminate|].
      destruct (lookupStatus st); discriminate.
    + intros ->. vm_compute in Hok. discriminate Hok.
Qed.

Lemma mapGoogleStatus_outcome st out :
  mapGoogleStatus st = Returned (Some out)
  <-> st = js "ZERO_RESULTS" /\ out = UNVERIFIABLE (js "No address found.").
Proof.
  unfold mapGoogleStatus. destruct (strictEq st (js "OK")) eqn:Hok.
  - apply strictEq_true in Hok. split; [discriminate|].
    intros [-> _]. vm_compute in Hok. discriminate Hok.
  - destruct (strictEq st (js "ZERO_RESULTS")) eqn:Hz.
    + apply strictEq_true in Hz. split.
      * now intros [= <-].
      * now intros [_ ->].
    + split; [destruct (lookupStatus st); discriminate|].
      intros [-> _]. vm_compute in Hz. discriminate Hz.
Qed.

Lemma no_address_found_iff results input :
  classifyGeocodeResults results input
  = Ok (UNVERIFIABLE (js "No address found."))
  <-> results = [].
Proof.
  rewrite classify_cases. split.
  - destruct results as [|r t]; [reflexivity|].
    destruct (nonCountryResults (r :: t));
      [intros H; vm_compute in H; discriminate H|].
    destruct (find isExactMatch (g :: l)) as [best|].
    + destruct (extractAddressComponents (address_components best));
        [|discriminate].
      cbn [bind].
      destruct (compareAddresses input (formatted_address best)); discriminate.
    + destruct (filter isPossibleMatch (g :: l));
        [intros H; vm_compute in H; discriminate H | discriminate].
  - now intros ->.
Qed.

(** X20.  The service returns "No address found." in exactly two
    situations, which the caller cannot tell apart: the provider answers
    ZERO_RESULTS, or it answers OK with no result list or an empty one. *)
Theorem no_address_found_sources axiosGet geocodingUrl address apiKey :
  validateUSAddress axiosGet geocodingUrl address apiKey
  = Returned (UNVERIFIABLE (js "No address found."))
  <-> exists data,
        axiosGet (urlOf geocodingUrl address apiKey) = Resolved data
        /\ (data_status data = js "ZERO_RESULTS"
            \/ (data_status data = js "OK"
                /\ (data_results data = None \/ data_results data = Some []))).
Proof.
  unfold validateUSAddress.
  destruct (axiosGet (urlOf geocodingUrl address apiKey)) as [data|st|e].
  - destruct (mapGoogleStatus (data_status data)) as [[out|]|err] eqn:Hmap;
      cbn [tryRethrow].
    + apply mapGoogleStatus_outcome in Hmap as [Hst ->].
      split; [|reflexivity]. intros _. exists data. split; [reflexivity|].
      now left.
    + apply mapGoogleStatus_null in Hmap. split.
      * intros H. exists data. split; [reflexivity|]. right.
        split; [exact Hmap|].
        destruct (data_results data) as [rs|]; [|now left]. right.
        cbn [classifyResults] in H.
        destruct (classifyGeocodeResults rs address) as [out|e] eqn:Hc;
          [|discriminate].
        injection H as ->. apply no_address_found_iff in Hc. now subst.
      * intros (d & [= <-] & [Hz|[_ [Hn|Hn]]]).
        -- rewrite Hmap in Hz. vm_compute in Hz. discriminate Hz.
        -- now rewrite Hn.
        -- now rewrite Hn.
    + split; [discriminate|].
      intros (d & [= <-] & [Hz|[Hok _]]).
      * assert (Hm : mapGoogleStatus (data_status data)
                     = Returned (Some (UNVERIFIABLE (js "No address found."))))
          by (now apply mapGoogleStatus_outcome).
        congruence.
      * apply mapGoogleStatus_null in Hok. congruence.
  - split; [discriminate | now intros (d & Hd & _)].
  - split; [discriminate | now intros (d & Hd & _)].
Qed.

(** X21.  The service throws an [HttpError] with status 500 in exactly two
    situations: [axios.get] failed with an error that is not an error of
    axios, or the provider answered OK and the classifier threw. *)
Theorem service_500_sources axiosGet geocodingUrl address apiKey :
  (exists e,
     validateUSAddress axiosGet geocodingUrl address apiKey
     = Raised (ThrownHttp e)
     /\ statusCode e = Some 500%N)
  <-> (exists err,
         axiosGet (urlOf geocodingUrl address apiKey) = RejectedOther err)
      \/ (exists data err,
            axiosGet (urlOf geocodingUrl address apiKey) = Resolved data
            /\ data_status data = js "OK"
            /\ classifyResults (data_results data) address = Throw err).
Proof.
  unfold validateUSAddress.
  destruct (axiosGet (urlOf geocodingUrl address apiKey)) as [data|st|e0].
  - destruct (mapGoogleStatus (data_status data)) as [[out|]|err] eqn:Hmap;
      cbn [tryRethrow].
    + apply mapGoogleStatus_outcome in Hmap as [Hst _]. split.
      * intros (e & H & _). discriminate H.
      * intros [(err & H)|(d & err & [= <-] & Hok & _)]; [discriminate H|].
        rewrite Hst in Hok. vm_compute in Hok. discriminate Hok.
    + apply mapGoogleStatus_null in Hmap.
      destruct (classifyResults (data_results data) address) as [out|err]
        eqn:Hc; cbn [ofResult tryRethrow].
      * split; [intros (e & H & _); discriminate H|].
        intros [(err & H)|(d & err & [= <-] & _ & Hthrow)];
          [discriminate H | congruence].
      * split; [|intros _; now eexists].
        intros _. right. now exists data, err.
    + split.
      * intros (e & H & H500). exfalso.
        destruct err as [e'|st|e'].
        -- simpl in H. injection H as <-.
           revert Hmap H500. unfold mapGoogleStatus, lookupStatus.
           destruct (strictEq (data_status data) (js "OK")); [discriminate|].
           destruct (strictEq (data_status data) (js "ZERO_RESULTS"));
             [discriminate|].
           unfold statusToError. cbn [find fst snd].
           repeat (destruct (strictEq _ (data_status data));
                   [intros [= <-]; discriminate|]).
           destruct (includes objectPrototypeNames (data_status data));
             intros [= <-]; discriminate.
        -- revert Hmap. unfold mapGoogleStatus.
           destruct (strictEq _ _); [discriminate|].
           destruct (strictEq _ _); [discriminate|].
           destruct (lookupStatus _); discriminate.
        -- revert Hmap. unfold mapGoogleStatus.
           destruct (strictEq _ _); [discriminate|].
           destruct (strictEq _ _); [discriminate|].
           destruct (lookupStatus _); discriminate.
      * intros [(e' & H)|(d & e' & [= <-] & Hok & _)]; [discriminate H|].
        apply mapGoogleStatus_null in Hok. congruence.
  - cbn [tryRethrow rethrowAxiosAsHttpError]. split.
    + intros (e & H & H500). exfalso. revert H H500.
      destruct st as [st|]; [|intros [= <-]; discriminate].
      destruct (st =? 403)%N; [intros [= <-]; discriminate|].
      destruct (st =? 429)%N; [intros [= <-]; discriminate|].
      destruct (negb (st =? 0)%N && (500 <=? st)%N);
        intros [= <-]; discriminate.
    + intros [(e' & H)|(d & e' & H & _)]; discriminate H.
  - split; [|intros _; now eexists].
    intros _. left. now exists e0.
Qed.

(** X22.  A provider status that is the name of a property inherited from
    [Object.prototype] (such as "constructor" or "toString") is found in
    the status table: the service throws an [HttpError] whose status
    code is [undefined] and whose message is empty, and [errorHandler]
    gives that [undefined] to [res.status]. *)
Theorem inherited_status_has_no_code axiosGet geocodingUrl googleApiKey
    raw address data :
  validateAddressPayload raw = NextWith address ->
  axiosGet (urlOf geocodingUrl address googleApiKey) = Resolved data ->
  includes objectPrototypeNames (data_status data) = true ->
  validateUSAddress axiosGet geocodingUrl address googleApiKey
  = Raised (ThrownHttp {| statusCode := None; message := js "";
                          details := NoDetails |})
  /\ postValidateAddress axiosGet geocodingUrl googleApiKey raw
     = {| status := None; body := ErrorBody (js "") NoDetails |}.
Proof.
  intros Hp Hget Hin.
  assert (Hmap : mapGoogleStatus (data_status data)
                 = Raised (ThrownHttp {| statusCode := None; message := js "";
                                         details := NoDetails |})).
  { unfold mapGoogleStatus, lookupStatus. rewrite Hin.
    unfold includes in Hin. apply existsb_exists in Hin as (name & Hname & He).
    apply strictEq_true in He. rewrite He.
    simpl in Hname.
    repeat (destruct Hname as [<-|Hname]; [vm_compute; reflexivity|]).
    contradiction. }
  assert (Hv : validateUSAddress axiosGet geocodingUrl address googleApiKey
               = Raised (ThrownHttp {| statusCode := None; message := js "";
                                       details := NoDetails |})).
  { unfold validateUSAddress. now rewrite Hget, Hmap. }
  split; [exact Hv|].
  unfold postValidateAddress, validateAddressController.
  now rewrite Hp, Hv.
Qed.

Lemma inherited_status_has_no_code_witness :
  validateAddressPayload (Some (js "1 Main St")) = NextWith (js "1 Main St")
  /\ includes objectPrototypeNames (js "constructor") = true
  /\ postValidateAddress
       (answering {| data_status := js "constructor"; data_results := None |})
       (js "https://maps.googleapis.com/maps/api/geocode/json") (js "k")
       (Some (js "1 Main St"))
     = {| status := None; body := ErrorBody (js "") NoDetails |}.
Proof.
  split; [vm_compute; reflexivity|]. split; [reflexivity|].
  apply (inherited_status_has_no_code
           (answering {| data_status := js "constructor";
                         data_results := None |})
           (js "https://maps.googleapis.com/maps/api/geocode/json") (js "k")
           (Some (js "1 Main St")) (js "1 Main St")
           {| data_status := js "constructor"; data_results := None |});
    [vm_compute; reflexivity | reflexivity | reflexivity].
Defined.

(** ** The request URL *)

Lemma hexDigit_unreserved n : isUriUnreserved (hexDigit n) = true.
Proof.
  unfold hexDigit. generalize (N.to_nat n). intros m.
  do 16 (destruct m as [|m]; [reflexivity|]).
  cbv [js list_ascii_of_string nth]. now destruct m.
Qed.

Lemma encodeURIComponent_chars s :
  Forall (fun c => isUriUnreserved c = true \/ c = "%"%char)
    (encodeURIComponent s).
Proof.
  unfold encodeURIComponent. induction s as [|c t IH]; [constructor|].
  cbn [flat_map]. apply Forall_app. split; [|exact IH].
  destruct (isUriUnreserved c) eqn:Hc; [constructor; [now left | constructor]|].
  unfold utf8.
  destruct (N_of_ascii c <? 128)%N; cbn [flat_map percentEncode app];
    repeat (constructor;
            [first [now right | left; apply hexDigit_unreserved]|]);
    constructor.
Qed.

Lemma split_no_separator sep a :
  Forall (fun c => c <> sep) a -> split sep a = [a].
Proof.
  induction 1 as [|c t Hc _ IH]; [reflexivity|]. simpl.
  apply Ascii.eqb_neq in Hc. now rewrite Hc, IH.
Qed.

Lemma split_at_separator sep a b :
  Forall (fun c => c <> sep) a -> split sep (a ++ sep :: b) = a :: split sep b.
Proof.
  induction 1 as [|c t Hc _ IH]; simpl.
  - now rewrite Ascii.eqb_refl.
  - apply Ascii.eqb_neq in Hc. now rewrite Hc, IH.
Qed.

Lemma unreserved_not_delimiter c :
  isUriUnreserved c = true \/ c = "%"%char -> ~ In c (js "&=?#/+ ").
Proof.
  intros [H| ->]; [|simpl; intuition discriminate].
  revert H. by_cases_on_char c; intros _; simpl; intuition discriminate.
Qed.

(** X23.  The address cannot change the shape of the request: its encoded
    form contains none of the characters [& = ? # / +] or a space, and
    when the API key contains no [&] the query consists of exactly the
    three parameters [address], [components=country:US] and [key]. *)
Theorem query_has_three_parameters address apiKey :
  Forall (fun c => c <> "&"%char) apiKey ->
  Forall (fun c => ~ In c (js "&=?#/+ ")) (encodeURIComponent address)
  /\ split "&"%char (queryOf address apiKey)
     = [ js "address=" ++ encodeURIComponent address;
         js "components=country:US";
         js "key=" ++ apiKey ].
Proof.
  intros Hkey.
  assert (Henc : Forall (fun c => ~ In c (js "&=?#/+ "))
                   (encodeURIComponent address)).
  { eapply Forall_impl; [|apply encodeURIComponent_chars].
    exact unreserved_not_delimiter. }
  split; [exact Henc|].
  unfold queryOf.
  replace (js "address=" ++ encodeURIComponent address
           ++ js "&components=country:US&key=" ++ apiKey)
    with ((js "address=" ++ encodeURIComponent address)
          ++ "&"%char :: js "components=country:US"
          ++ "&"%char :: js "key=" ++ apiKey)
    by (now rewrite <- app_assoc).
  rewrite split_at_separator.
  - rewrite split_at_separator by (repeat constructor; discriminate).
    rewrite split_no_separator; [reflexivity|].
    apply Forall_app. split; [repeat constructor; discriminate | exact Hkey].
  - apply Forall_app. split; [repeat constructor; discriminate|].
    eapply Forall_impl; [|exact Henc]. intros c Hc ->. apply Hc. now left.
Qed.

Lemma query_has_three_parameters_witness :
  Forall (fun c => c <> "&"%char) (js "k")
  /\ split "&"%char (queryOf (js "1 Main St&key=other") (js "k"))
     = [ js "address=1%20Main%20St%26key%3Dother";
         js "components=country:US";
         js "key=k" ].
Proof.
  assert (H : Forall (fun c => c <> "&"%char) (js "k"))
    by (repeat constructor; discriminate).
  split; [exact H|].
  exact (proj2 (query_has_three_parameters (js "1 Main St&key=other")
                 (js "k") H)).
Defined.
